(** * Lumina gallery (src/App.tsx): feed composition and persistence

    A shallow embedding of the state layer of [App.tsx]: the haversine
    helper, the [localStorage] load and save effects, the [filteredPhotos]
    memo, the progressive-loading effects and [handleUpdatePhoto].

    Conventions of the embedding.
    - A JavaScript [number] is a real number ([R]): IEEE-754 rounding, NaN
      and the infinities are idealised away.  Tests on numbers are the
      decidable order and equality of [R].  What is proved of a distance
      is proved of the exact formula: in double precision the haversine
      term of two nearly antipodal points can round above 1, and the
      code's distance is then NaN.
    - An optional field ([rating?], [latitude?]) and a nullable state
      ([userLocation]) is an [option].
    - [Math.random] reads a stream of draws that is threaded through the
      code as explicit state (monad [Rand]).
    - [Array.prototype.sort] is a stable insertion sort that calls the
      comparator in that monad.  *)

From Stdlib Require Import Reals Lra Lia List String Ascii Bool Arith ZArith.
From Stdlib Require Import Permutation Sorted.
From Stdlib Require Import DecimalString.
Import ListNotations.

Set Warnings "-register-all".

Local Open Scope string_scope.
Local Open Scope list_scope.
Local Open Scope R_scope.

(** ** JavaScript numbers *)

Abbreviation number := R (only parsing).

(** [x || 0] on an optional number. *)
Definition orZero (x : option number) : number :=
  match x with
  | Some v => v
  | None => 0
  end.

(** Truthiness of an optional number: [undefined] and [0] are falsy. *)
Definition truthy (x : option number) : bool :=
  match x with
  | Some v => if Req_dec_T v 0 then false else true
  | None => false
  end.

(** [a >= b], [a > b] and [a === b] as boolean tests. *)
Definition geb (a b : number) : bool := if Rle_dec b a then true else false.
Definition gtb (a b : number) : bool := if Rlt_dec b a then true else false.
Definition Reqb (a b : number) : bool := if Req_dec_T a b then true else false.

(** ** GeoDistance (App.tsx, lines 11-27) *)

Definition deg2rad (deg : number) : number := deg * (PI / 180).

(** [Math.atan2 y x]: the angle of the point [(x, y)], in [(-PI, PI]]. *)
Definition Math_atan2 (y x : number) : number :=
  if Rlt_dec 0 x then atan (y / x)
  else if Rlt_dec x 0 then
    if Rle_dec 0 y then atan (y / x) + PI else atan (y / x) - PI
  else if Rlt_dec 0 y then PI / 2
  else if Rlt_dec y 0 then - (PI / 2)
  else 0.

Definition getDistanceFromLatLonInKm (lat1 lon1 lat2 lon2 : number) : number :=
  let R := 6371 in
  let dLat := deg2rad (lat2 - lat1) in
  let dLon := deg2rad (lon2 - lon1) in
  let a :=
    sin (dLat / 2) * sin (dLat / 2) +
    cos (deg2rad lat1) * cos (deg2rad lat2) *
    sin (dLon / 2) * sin (dLon / 2) in
  let c := 2 * Math_atan2 (sqrt a) (sqrt (1 - a)) in
  let d := R * c in
  d.

(** ** Data model *)

(** Modelled from the spec: the [Category] enumeration of [types.ts], which
    is not among the sources.  [App.tsx] names [ALL], [HORIZONTAL],
    [VERTICAL], [LANDSCAPE] and [MACRO]; the members it never names are
    gathered under [OTHER]. *)
Inductive Category : Type :=
| ALL
| LANDSCAPE
| MACRO
| HORIZONTAL
| VERTICAL
| OTHER (label : string).

Definition Category_eqb (c1 c2 : Category) : bool :=
  match c1, c2 with
  | ALL, ALL | LANDSCAPE, LANDSCAPE | MACRO, MACRO => true
  | HORIZONTAL, HORIZONTAL | VERTICAL, VERTICAL => true
  | OTHER l1, OTHER l2 => String.eqb l1 l2
  | _, _ => false
  end.

(** Modelled from the spec: the [Photo] interface of [types.ts] (spec,
    section 3) with the fields that [App.tsx] reads and writes. *)
Record Exif : Type := mkExif {
  camera : string;
  lens : string;
  focalLength : string;
  aperture : string;
  shutterSpeed : string;
  iso : string;
  location : string;
  date : string;
  latitude : option number;
  longitude : option number
}.

Record Photo : Type := mkPhoto {
  id : string;
  url : string;
  title : string;
  category : Category;
  width : option number;
  height : option number;
  rating : option number;
  exif : Exif
}.

Record GeoCoordinate : Type := mkGeo { lat : number; lng : number }.

(** ** Math.random as threaded state *)

Record RNG : Type := mkRNG { draws : nat -> number; cursor : nat }.

Definition Rand (A : Type) : Type := RNG -> A * RNG.

Definition ret {A : Type} (a : A) : Rand A := fun g => (a, g).

Definition bind {A B : Type} (m : Rand A) (k : A -> Rand B) : Rand B :=
  fun g => let (a, g') := m g in k a g'.

Notation "x <- m ;; k" := (bind m (fun x => k))
  (at level 61, m at next level, right associativity).

Definition Math_random : Rand number :=
  fun g => (draws g (cursor g), mkRNG (draws g) (S (cursor g))).

(** ** Array.prototype.sort

    A stable insertion sort.  [comparefn x y > 0] moves [x] behind [y];
    a result that is zero or negative leaves [x] in front, so elements
    that compare equal keep their order.  For a comparator that is a
    consistent order the result is the one ECMAScript prescribes, whatever
    the algorithm of the engine; for [Math.random() - 0.5] the language
    leaves the order to the engine, and the model fixes this algorithm and
    lets the draws vary. *)
Section ArraySort.
Context {A : Type}.
Variable comparefn : A -> A -> Rand number.

Fixpoint insertM (x : A) (l : list A) : Rand (list A) :=
  match l with
  | [] => ret [x]
  | y :: l' =>
      v <- comparefn x y ;;
      if gtb v 0 then (r <- insertM x l' ;; ret (y :: r))
      else ret (x :: y :: l')
  end.

Fixpoint Array_sort (l : list A) : Rand (list A) :=
  match l with
  | [] => ret []
  | x :: l' => s <- Array_sort l' ;; insertM x s
  end.
End ArraySort.

(** What [Array_sort] computes when the comparator is a pure function. *)
Section PureSort.
Context {A : Type}.
Variable compare : A -> A -> number.

Fixpoint insert_by (x : A) (l : list A) : list A :=
  match l with
  | [] => [x]
  | y :: l' => if gtb (compare x y) 0 then y :: insert_by x l' else x :: y :: l'
  end.

Fixpoint sort_by (l : list A) : list A :=
  match l with
  | [] => []
  | x :: l' => insert_by x (sort_by l')
  end.
End PureSort.

(** ** FeedComposer: [filteredPhotos] (App.tsx, lines 247-296) *)

Definition FEED_TABS : list string := ["精选"; "最新"; "随览"; "附近"; "远方"]%string.
Definition TAB_CURATED : string := "精选".
Definition TAB_LATEST : string := "最新".
Definition TAB_SHUFFLE : string := "随览".
Definition TAB_NEARBY : string := "附近".
Definition TAB_FARAWAY : string := "远方".

(** The predicate of [photos.filter] at line 249. *)
Definition categoryFilter (activeCategory : Category) (p : Photo) : bool :=
  if Category_eqb activeCategory ALL then true
  else if Category_eqb activeCategory HORIZONTAL then
    geb (orZero (width p)) (orZero (height p))
  else if Category_eqb activeCategory VERTICAL then
    gtb (orZero (height p)) (orZero (width p))
  else Category_eqb (category p) activeCategory.

(** [distA] and [distB] of the comparator at lines 279-284. *)
Definition sortDistance (userLocation : GeoCoordinate) (p : Photo) : number :=
  if truthy (latitude (exif p)) && truthy (longitude (exif p)) then
    getDistanceFromLatLonInKm (lat userLocation) (lng userLocation)
      (orZero (latitude (exif p))) (orZero (longitude (exif p)))
  else 99999.

Definition ratingCompare (a b : Photo) : number :=
  orZero (rating b) - orZero (rating a).

Definition distanceCompare (activeTab : string) (userLocation : GeoCoordinate)
    (a b : Photo) : number :=
  let distA := sortDistance userLocation a in
  let distB := sortDistance userLocation b in
  if String.eqb activeTab TAB_NEARBY then distA - distB else distB - distA.

Definition randomCompare (a b : Photo) : Rand number :=
  r <- Math_random ;; ret (r - 0.5).

(** Every branch sorts an array that [filter] has just allocated, so the
    in-place [sort] never reaches [photos]; the result is a new list. *)
Definition filteredPhotos (photos : list Photo) (activeCategory : Category)
    (activeTab : string) (shuffleTrigger : nat)
    (userLocation : option GeoCoordinate) : Rand (list Photo) :=
  let result := filter (categoryFilter activeCategory) photos in
  if String.eqb activeTab TAB_CURATED then
    let result := filter (fun p => geb (orZero (rating p)) 4) result in
    Array_sort (fun a b => ret (ratingCompare a b)) result
  else if String.eqb activeTab TAB_LATEST then ret result
  else if String.eqb activeTab TAB_SHUFFLE then
    let trigger := shuffleTrigger in
    Array_sort randomCompare result
  else if String.eqb activeTab TAB_NEARBY || String.eqb activeTab TAB_FARAWAY then
    match userLocation with
    | Some loc =>
        Array_sort (fun a b => ret (distanceCompare activeTab loc a b)) result
    | None => ret result
    end
  else ret result.

(** ** JSON values and [JSON.parse] *)

Inductive JSON : Type :=
| JNull
| JBool (b : bool)
| JNumber (n : number)
| JString (s : string)
| JArray (items : list JSON)
| JObject (members : list (string * JSON)).

Module JsonText.
Local Open Scope char_scope.

Definition is_ws (c : ascii) : bool :=
  match c with
  | " " | "009" | "010" | "013" => true
  | _ => false
  end.

Fixpoint skip_ws (cs : list ascii) : list ascii :=
  match cs with
  | c :: rest => if is_ws c then skip_ws rest else cs
  | [] => []
  end.

Definition digit_of (c : ascii) : option Z :=
  let n := nat_of_ascii c in
  if ((48 <=? n) && (n <=? 57))%nat then Some (Z.of_nat (n - 48)) else None.

Definition hex_of (c : ascii) : option nat :=
  let n := nat_of_ascii c in
  if ((48 <=? n) && (n <=? 57))%nat then Some (n - 48)%nat
  else if ((65 <=? n) && (n <=? 70))%nat then Some (n - 55)%nat
  else if ((97 <=? n) && (n <=? 102))%nat then Some (n - 87)%nat
  else None.

(** A run of digits: its value after the accumulator, its length, the rest. *)
Fixpoint digits (acc : Z) (len : nat) (cs : list ascii) : Z * nat * list ascii :=
  match cs with
  | c :: rest =>
      match digit_of c with
      | Some d => digits (acc * 10 + d) (S len) rest
      | None => (acc, len, cs)
      end
  | [] => (acc, len, [])
  end.

(** The value of mantissa [m] scaled by ten to the [e]. *)
Definition scale (m e : Z) : number :=
  if (0 <=? e)%Z then IZR (m * 10 ^ e) else IZR m / IZR (10 ^ (- e)).

(** Integer part: a lone [0], or a run of digits that does not start with [0]. *)
Definition int_part (cs : list ascii) : option (Z * list ascii) :=
  match cs with
  | "0" :: rest => Some (0%Z, rest)
  | _ => match digits 0 0 cs with
         | (_, O, _) => None
         | (m, _, rest) => Some (m, rest)
         end
  end.

Definition frac_part (m : Z) (cs : list ascii) : option (Z * nat * list ascii) :=
  match cs with
  | "." :: rest =>
      match digits m 0 rest with
      | (_, O, _) => None
      | r => Some r
      end
  | _ => Some (m, O, cs)
  end.

Definition exp_part (cs : list ascii) : option (Z * list ascii) :=
  let run (neg : bool) (rest : list ascii) :=
    match digits 0 0 rest with
    | (_, O, _) => None
    | (e, _, rest') => Some (if neg then (- e)%Z else e, rest')
    end in
  match cs with
  | "e" :: "-" :: rest | "E" :: "-" :: rest => run true rest
  | "e" :: "+" :: rest | "E" :: "+" :: rest => run false rest
  | "e" :: rest | "E" :: rest => run false rest
  | _ => Some (0%Z, cs)
  end.

Definition parse_number (cs : list ascii) : option (number * list ascii) :=
  let (neg, cs1) := match cs with "-" :: rest => (true, rest) | _ => (false, cs) end in
  match int_part cs1 with
  | None => None
  | Some (m, cs2) =>
      match frac_part m cs2 with
      | None => None
      | Some (m', flen, cs3) =>
          match exp_part cs3 with
          | None => None
          | Some (e, cs4) =>
              let v := scale m' (e - Z.of_nat flen) in
              Some (if neg then - v else v, cs4)
          end
      end
  end.

(** The bytes of code point [n] in UTF-8 (for an escape [\uXXXX]). *)
Definition utf8 (n : nat) : list ascii :=
  if (n <? 128)%nat then [ascii_of_nat n]
  else if (n <? 2048)%nat then
    [ascii_of_nat (192 + n / 64); ascii_of_nat (128 + n mod 64)]
  else
    [ascii_of_nat (224 + n / 4096); ascii_of_nat (128 + (n / 64) mod 64);
     ascii_of_nat (128 + n mod 64)].

(** The characters of a string literal after its opening quote. *)
Fixpoint parse_chars (fuel : nat) (cs : list ascii) : option (list ascii * list ascii) :=
  match fuel with
  | O => None
  | S fuel' =>
      let more (out : list ascii) (rest : list ascii) :=
        match parse_chars fuel' rest with
        | Some (s, rest') => Some (out ++ s, rest')
        | None => None
        end in
      match cs with
      | [] => None
      | "034" :: rest => Some ([], rest)
      | "\" :: e :: rest =>
          match e with
          | "034" => more ["034"] rest
          | "\" => more ["\"] rest
          | "/" => more ["/"] rest
          | "b" => more ["008"] rest
          | "f" => more ["012"] rest
          | "n" => more ["010"] rest
          | "r" => more ["013"] rest
          | "t" => more ["009"] rest
          | "u" =>
              match rest with
              | h1 :: h2 :: h3 :: h4 :: rest' =>
                  match hex_of h1, hex_of h2, hex_of h3, hex_of h4 with
                  | Some a, Some b, Some c, Some d =>
                      more (utf8 (((a * 16 + b) * 16 + c) * 16 + d)) rest'
                  | _, _, _, _ => None
                  end
              | _ => None
              end
          | _ => None
          end
      | c :: rest =>
          if (nat_of_ascii c <? 32)%nat then None else more [c] rest
      end
  end.

Definition parse_string (fuel : nat) (cs : list ascii) : option (string * list ascii) :=
  match parse_chars fuel cs with
  | Some (s, rest) => Some (string_of_list_ascii s, rest)
  | None => None
  end.

Fixpoint parse_value (fuel : nat) (cs : list ascii) : option (JSON * list ascii) :=
  match fuel with
  | O => None
  | S fuel' =>
      match skip_ws cs with
      | "n" :: "u" :: "l" :: "l" :: rest => Some (JNull, rest)
      | "t" :: "r" :: "u" :: "e" :: rest => Some (JBool true, rest)
      | "f" :: "a" :: "l" :: "s" :: "e" :: rest => Some (JBool false, rest)
      | "034" :: rest =>
          match parse_string fuel' rest with
          | Some (s, rest') => Some (JString s, rest')
          | None => None
          end
      | "[" :: rest =>
          match skip_ws rest with
          | "]" :: rest' => Some (JArray [], rest')
          | _ =>
              match parse_elements fuel' rest with
              | Some (items, rest') => Some (JArray items, rest')
              | None => None
              end
          end
      | "{" :: rest =>
          match skip_ws rest with
          | "}" :: rest' => Some (JObject [], rest')
          | _ =>
              match parse_members fuel' rest with
              | Some (members, rest') => Some (JObject members, rest')
              | None => None
              end
          end
      | cs' =>
          match parse_number cs' with
          | Some (n, rest) => Some (JNumber n, rest)
          | None => None
          end
      end
  end
with parse_elements (fuel : nat) (cs : list ascii) : option (list JSON * list ascii) :=
  match fuel with
  | O => None
  | S fuel' =>
      match parse_value fuel' cs with
      | Some (v, rest) =>
          match skip_ws rest with
          | "," :: rest' =>
              match parse_elements fuel' rest' with
              | Some (vs, rest'') => Some (v :: vs, rest'')
              | None => None
              end
          | "]" :: rest' => Some ([v], rest')
          | _ => None
          end
      | None => None
      end
  end
with parse_members (fuel : nat) (cs : list ascii)
    : option (list (string * JSON) * list ascii) :=
  match fuel with
  | O => None
  | S fuel' =>
      match skip_ws cs with
      | "034" :: rest =>
          match parse_string fuel' rest with
          | Some (k, rest1) =>
              match skip_ws rest1 with
              | ":" :: rest2 =>
                  match parse_value fuel' rest2 with
                  | Some (v, rest3) =>
                      match skip_ws rest3 with
                      | "," :: rest4 =>
                          match parse_members fuel' rest4 with
                          | Some (ms, rest5) => Some ((k, v) :: ms, rest5)
                          | None => None
                          end
                      | "}" :: rest4 => Some ([(k, v)], rest4)
                      | _ => None
                      end
                  | None => None
                  end
              | _ => None
              end
          | None => None
          end
      | _ => None
      end
  end.
End JsonText.

(** [JSON.parse text]: [None] stands for the [SyntaxError] it throws.  Every
    call of the parser consumes a character, so the length of the text is
    fuel enough. *)
Definition JSON_parse (text : string) : option JSON :=
  let cs := list_ascii_of_string text in
  match JsonText.parse_value (S (List.length cs)) cs with
  | Some (v, rest) =>
      match JsonText.skip_ws rest with
      | [] => Some v
      | _ :: _ => None
      end
  | None => None
  end.

Definition Array_isArray (v : JSON) : bool :=
  match v with
  | JArray _ => true
  | _ => false
  end.

(** The elements of a value that [Array_isArray] accepts. *)
Definition elements (v : JSON) : list JSON :=
  match v with
  | JArray items => items
  | _ => []
  end.

(** ** Seed data (App.tsx, lines 29-96) *)

Definition decimal (n : nat) : string := NilEmpty.string_of_uint (Nat.to_uint n).

Definition BASE_PHOTOS : list Photo :=
  [ mkPhoto "1" "https://picsum.photos/id/16/800/600" "迷雾山脉" LANDSCAPE
      (Some 800) (Some 600) (Some 5)
      (mkExif "Leica M11" "Summilux 35mm" "35mm" "f/5.6" "1/250s" "100"
         "阿尔卑斯, 瑞士" "2023-10-12" (Some 46.8182) (Some 8.2275));
    mkPhoto "4" "https://picsum.photos/id/28/900/600" "深林" LANDSCAPE
      (Some 900) (Some 600) (Some 4)
      (mkExif "Canon R5" "15-35mm" "15mm" "f/8" "1/4s" "50"
         "俄勒冈, 美国" "2023-08-15" (Some 43.8041) (Some (-120.5542)));
    mkPhoto "5" "https://picsum.photos/id/106/800/600" "霓虹雨夜" MACRO
      (Some 800) (Some 600) (Some 3)
      (mkExif "Nikon Z8" "105mm Macro" "105mm" "f/4" "1/200s" "400"
         "伦敦, 英国" "2023-12-01" (Some 51.5074) (Some (-0.1278))) ]%string.

Definition generatedPhoto (i : nat) : Rand Photo :=
  let base := nth (i mod List.length BASE_PHOTOS) BASE_PHOTOS
                (mkPhoto "" "" "" ALL None None None
                   (mkExif "" "" "" "" "" "" "" "" None None)) in
  r1 <- Math_random ;;
  let latOffset := (r1 - 0.5) * 10 in
  r2 <- Math_random ;;
  let lngOffset := (r2 - 0.5) * 10 in
  ret (mkPhoto
         ("gen-" ++ decimal i)
         ("https://picsum.photos/id/" ++ decimal ((i * 13) mod 100 + 10) ++ "/800/600")
         (title base ++ " " ++ decimal (i + 1))
         (category base)
         (Some 800) (Some 600)
         (rating base)
         (mkExif (camera (exif base)) (lens (exif base)) (focalLength (exif base))
            (aperture (exif base)) (shutterSpeed (exif base)) (iso (exif base))
            (location (exif base)) (date (exif base))
            (Some (orZero (latitude (exif base)) + latOffset))
            (Some (orZero (longitude (exif base)) + lngOffset))))%string.

Fixpoint mapM {A B : Type} (f : A -> Rand B) (l : list A) : Rand (list B) :=
  match l with
  | [] => ret []
  | a :: l' => b <- f a ;; bs <- mapM f l' ;; ret (b :: bs)
  end.

Definition GENERATED_PHOTOS : Rand (list Photo) := mapM generatedPhoto (seq 0 25).

Definition INITIAL_PHOTOS : Rand (list Photo) :=
  generated <- GENERATED_PHOTOS ;; ret (BASE_PHOTOS ++ generated).

Definition PAGE_SIZE : nat := 9.

(** ** PersistentStore: load (App.tsx, lines 103-113)

    The type [Photo[]] of the state is not checked at run time: what
    [load] returns is whatever array [JSON.parse] produced, so its result
    is a list of raw JSON values.  The seed is passed in its JSON form. *)
Definition load (INITIAL : list JSON) (saved : option string) : list JSON :=
  let attempt : option JSON :=          (* [None]: an exception was thrown *)
    match saved with
    | Some text => if String.eqb text "" then Some JNull else JSON_parse text
    | None => Some JNull
    end in
  match attempt with
  | Some parsed => if Array_isArray parsed then elements parsed else INITIAL
  | None => INITIAL                      (* catch (e) *)
  end.

(** The JSON form of a photo, as [JSON.stringify] writes it: fields in
    declaration order, absent optional fields left out.  The string values
    of the [Category] enumeration live in [types.ts]; they are the
    parameter [Category_value]. *)
Section PhotoJson.
Variable Category_value : Category -> string.

Definition optional (key : string) (v : option number) : list (string * JSON) :=
  match v with
  | Some n => [(key, JNumber n)]
  | None => []
  end.

Definition exif_to_json (e : Exif) : JSON :=
  JObject ([("camera", JString (camera e)); ("lens", JString (lens e));
            ("focalLength", JString (focalLength e));
            ("aperture", JString (aperture e));
            ("shutterSpeed", JString (shutterSpeed e));
            ("iso", JString (iso e)); ("location", JString (location e));
            ("date", JString (date e))]
           ++ optional "latitude" (latitude e)
           ++ optional "longitude" (longitude e)).

Definition photo_to_json (p : Photo) : JSON :=
  JObject ([("id", JString (id p)); ("url", JString (url p));
            ("title", JString (title p));
            ("category", JString (Category_value (category p)))]
           ++ optional "width" (width p) ++ optional "height" (height p)
           ++ optional "rating" (rating p)
           ++ [("exif", exif_to_json (exif p))]).
End PhotoJson.

(** Modelled from the spec: what section 3 calls a Photo-shaped record, an
    object with string [id], [url], [title] and [category], numeric
    [width] and [height] and an [exif] object. *)
Definition member (key : string) (v : JSON) : option JSON :=
  match v with
  | JObject members =>
      match find (fun kv => String.eqb (fst kv) key) members with
      | Some kv => Some (snd kv)
      | None => None
      end
  | _ => None
  end.

Definition is_string (v : option JSON) : bool :=
  match v with Some (JString _) => true | _ => false end.
Definition is_number (v : option JSON) : bool :=
  match v with Some (JNumber _) => true | _ => false end.
Definition is_object (v : option JSON) : bool :=
  match v with Some (JObject _) => true | _ => false end.

Definition photo_shaped (v : JSON) : bool :=
  is_string (member "id" v) && is_string (member "url" v)
  && is_string (member "title" v) && is_string (member "category" v)
  && is_number (member "width" v) && is_number (member "height" v)
  && is_object (member "exif" v).

(** The contract of [load] in the words of the spec (section 4.2): the
    saved collection when the stored value is present and is a sequence of
    Photo-shaped records, the seed otherwise. *)
Definition load_contract (INITIAL : list JSON) (saved : option string) : list JSON :=
  match saved with
  | Some text =>
      match JSON_parse text with
      | Some (JArray items) => if forallb photo_shaped items then items else INITIAL
      | _ => INITIAL
      end
  | None => INITIAL
  end.

(** ** PersistentStore: save with quota recovery (App.tsx, lines 115-147)

    The slot [lumina_photos] holds the collection whose serialisation was
    written last.  Whether the browser accepts a write is its own
    business: [rejects] gives the exception that [setItem] throws for a
    value, if any. *)
Record Error : Type := mkError { name : string; code : nat }.

Record Storage : Type := mkStorage {
  lumina_photos : option (list Photo);
  rejects : list Photo -> option Error
}.

Definition setItem (value : list Photo) (st : Storage) : Storage + Error :=
  match rejects st value with
  | Some e => inr e
  | None => inl (mkStorage (Some value) (rejects st))
  end.

Inductive Effect : Type :=
| console_warn (message : string)
| console_error (message : string)
| alert (message : string)
| location_reload.

Definition MSG_CLEANED : string :=
  "本地存储空间已满。系统已自动清理旧的测试图片（Base64），以保存新上传的云端图片。页面将刷新。".
Definition MSG_EXHAUSTED : string :=
  "本地存储严重不足，且无法自动清理。请手动清除浏览器缓存。".
Definition MSG_SAVE_FAILED : string := "保存失败：浏览器存储空间已满。".

Definition isInline (p : Photo) : bool := String.prefix "data:image" (url p).

Definition isQuotaExceeded (e : Error) : bool :=
  String.eqb (name e) "QuotaExceededError" || Nat.eqb (code e) 22.

Definition savePhotos (photos : list Photo) (st : Storage) : Storage * list Effect :=
  match setItem photos st with
  | inl st' => (st', [])
  | inr e =>
      if isQuotaExceeded e then
        let warned :=
          [console_warn
             "LocalStorage Quota Exceeded. Attempting to clean up old Base64 images..."] in
        let cleanPhotos := filter (fun p => negb (isInline p)) photos in
        if (List.length cleanPhotos <? List.length photos)%nat then
          match setItem cleanPhotos st with
          | inl st' => (st', warned ++ [alert MSG_CLEANED; location_reload])
          | inr retryErr =>
              (st, warned ++ [console_error "Failed to save even after cleanup";
                              alert MSG_SAVE_FAILED])
          end
        else (st, warned ++ [alert MSG_EXHAUSTED])
      else (st, [console_error "Failed to save photos to storage"])
  end.

(** ** The component state and its handlers *)

Inductive ViewMode : Type := grid | map_view.

Definition ViewMode_eqb (a b : ViewMode) : bool :=
  match a, b with
  | grid, grid | map_view, map_view => true
  | _, _ => false
  end.

(** The [useState] cells of [App] that the feed depends on, the value
    cached by [useMemo] for [filteredPhotos], the number of geolocation
    queries in flight and the state of [Math.random]. *)
Record AppState : Type := mkApp {
  photos : list Photo;
  activeCategory : Category;
  activeTab : string;
  viewMode : ViewMode;
  isManageMode : bool;
  selectedPhoto : option Photo;
  visibleCount : nat;
  shuffleTrigger : nat;
  userLocation : option GeoCoordinate;
  memo : list Photo;
  pendingLocation : nat;
  random : RNG
}.

Definition setPhotos (v : list Photo) (s : AppState) : AppState :=
  mkApp v (activeCategory s) (activeTab s) (viewMode s) (isManageMode s)
    (selectedPhoto s) (visibleCount s) (shuffleTrigger s) (userLocation s)
    (memo s) (pendingLocation s) (random s).
Definition setActiveCategory (v : Category) (s : AppState) : AppState :=
  mkApp (photos s) v (activeTab s) (viewMode s) (isManageMode s)
    (selectedPhoto s) (visibleCount s) (shuffleTrigger s) (userLocation s)
    (memo s) (pendingLocation s) (random s).
Definition setActiveTab (v : string) (s : AppState) : AppState :=
  mkApp (photos s) (activeCategory s) v (viewMode s) (isManageMode s)
    (selectedPhoto s) (visibleCount s) (shuffleTrigger s) (userLocation s)
    (memo s) (pendingLocation s) (random s).
Definition setViewMode (v : ViewMode) (s : AppState) : AppState :=
  mkApp (photos s) (activeCategory s) (activeTab s) v (isManageMode s)
    (selectedPhoto s) (visibleCount s) (shuffleTrigger s) (userLocation s)
    (memo s) (pendingLocation s) (random s).
Definition setIsManageMode (v : bool) (s : AppState) : AppState :=
  mkApp (photos s) (activeCategory s) (activeTab s) (viewMode s) v
    (selectedPhoto s) (visibleCount s) (shuffleTrigger s) (userLocation s)
    (memo s) (pendingLocation s) (random s).
Definition setSelectedPhoto (v : option Photo) (s : AppState) : AppState :=
  mkApp (photos s) (activeCategory s) (activeTab s) (viewMode s) (isManageMode s)
    v (visibleCount s) (shuffleTrigger s) (userLocation s)
    (memo s) (pendingLocation s) (random s).
Definition setVisibleCount (v : nat) (s : AppState) : AppState :=
  mkApp (photos s) (activeCategory s) (activeTab s) (viewMode s) (isManageMode s)
    (selectedPhoto s) v (shuffleTrigger s) (userLocation s)
    (memo s) (pendingLocation s) (random s).
Definition setShuffleTrigger (v : nat) (s : AppState) : AppState :=
  mkApp (photos s) (activeCategory s) (activeTab s) (viewMode s) (isManageMode s)
    (selectedPhoto s) (visibleCount s) v (userLocation s)
    (memo s) (pendingLocation s) (random s).
Definition setUserLocation (v : option GeoCoordinate) (s : AppState) : AppState :=
  mkApp (photos s) (activeCategory s) (activeTab s) (viewMode s) (isManageMode s)
    (selectedPhoto s) (visibleCount s) (shuffleTrigger s) v
    (memo s) (pendingLocation s) (random s).
Definition setMemo (v : list Photo) (g : RNG) (s : AppState) : AppState :=
  mkApp (photos s) (activeCategory s) (activeTab s) (viewMode s) (isManageMode s)
    (selectedPhoto s) (visibleCount s) (shuffleTrigger s) (userLocation s)
    v (pendingLocation s) g.
Definition setPendingLocation (v : nat) (s : AppState) : AppState :=
  mkApp (photos s) (activeCategory s) (activeTab s) (viewMode s) (isManageMode s)
    (selectedPhoto s) (visibleCount s) (shuffleTrigger s) (userLocation s)
    (memo s) v (random s).

(** [handleTabClick] (lines 203-245).  The geolocation query is
    asynchronous: the click only counts it as pending. *)
Definition handleTabClick (tab : string) (s : AppState) : AppState :=
  let s := match viewMode s with map_view => setViewMode grid s | grid => s end in
  let s := if String.eqb tab TAB_SHUFFLE
           then setShuffleTrigger (shuffleTrigger s + 1) s else s in
  let s := if (String.eqb tab TAB_NEARBY || String.eqb tab TAB_FARAWAY)
              && match userLocation s with None => true | Some _ => false end
           then setPendingLocation (pendingLocation s + 1) s else s in
  setActiveTab tab s.

(** The success callback of [getCurrentPosition] (lines 220-226). *)
Definition locationResolved (loc : GeoCoordinate) (s : AppState) : AppState :=
  match pendingLocation s with
  | O => s
  | S n => setUserLocation (Some loc) (setPendingLocation n s)
  end.

(** The map toggle (line 457) and the manage-mode toggle (lines 510-515). *)
Definition toggleMap (s : AppState) : AppState :=
  setViewMode (match viewMode s with grid => map_view | map_view => grid end) s.

Definition toggleManageMode (s : AppState) : AppState :=
  let s' := if negb (isManageMode s) && ViewMode_eqb (viewMode s) map_view
            then setViewMode grid s else s in
  setIsManageMode (negb (isManageMode s)) s'.

(** [handleUpdatePhoto] (lines 327-354). *)
Definition handleUpdatePhoto (updatedPhoto : Photo) (s : AppState) : AppState :=
  let prevPhotos := photos s in
  let exists_ := existsb (fun p => String.eqb (id p) (id updatedPhoto)) prevPhotos in
  let s1 :=
    if exists_ then
      setPhotos
        (map (fun p => if String.eqb (id p) (id updatedPhoto) then updatedPhoto else p)
           prevPhotos) s
    else
      setPhotos (updatedPhoto :: prevPhotos)
        (setActiveTab TAB_LATEST (setActiveCategory ALL (setViewMode grid s))) in
  match selectedPhoto s with
  | Some sel =>
      if String.eqb (id sel) (id updatedPhoto)
      then setSelectedPhoto (Some updatedPhoto) s1 else s1
  | None => s1
  end.

(** [handleDeletePhoto] once [window.confirm] has been answered with yes
    (lines 356-373). *)
Definition handleDeletePhoto (photoId : string) (s : AppState) : AppState :=
  let s1 := setPhotos (filter (fun p => negb (String.eqb (id p) photoId)) (photos s)) s in
  match selectedPhoto s with
  | Some sel => if String.eqb (id sel) photoId then setSelectedPhoto None s1 else s1
  | None => s1
  end.

(** ** PaginationController (App.tsx, lines 298-325) *)

(** The updater shared by the timer (line 306) and by the intersection
    observer (line 316). *)
Definition advance (s : AppState) : AppState :=
  setVisibleCount (Nat.min (visibleCount s + PAGE_SIZE) (List.length (memo s))) s.

Definition visiblePhotos (s : AppState) : list Photo :=
  firstn (visibleCount s) (memo s).

(** What a render does after a handler has run on [old] and produced
    [new]: [useMemo] recomputes [filteredPhotos] when one of its
    dependencies changed ([fresh] says that [photos] or [userLocation] is a
    new object), and the effect of lines 299-302 resets the window when
    one of its four dependencies changed. *)
Definition memoStale (fresh : bool) (old new : AppState) : bool :=
  fresh
  || negb (Category_eqb (activeCategory old) (activeCategory new))
  || negb (String.eqb (activeTab old) (activeTab new))
  || negb (Nat.eqb (shuffleTrigger old) (shuffleTrigger new)).

Definition resetDue (old new : AppState) : bool :=
  negb (Category_eqb (activeCategory old) (activeCategory new))
  || negb (String.eqb (activeTab old) (activeTab new))
  || negb (Nat.eqb (shuffleTrigger old) (shuffleTrigger new))
  || negb (ViewMode_eqb (viewMode old) (viewMode new)).

Definition render (fresh : bool) (old new : AppState) : AppState :=
  let s1 :=
    if memoStale fresh old new then
      let (view, g) :=
        filteredPhotos (photos new) (activeCategory new) (activeTab new)
          (shuffleTrigger new) (userLocation new) (random new) in
      setMemo view g new
    else new in
  if resetDue old new then setVisibleCount PAGE_SIZE s1 else s1.

Inductive Event : Type :=
| TabClick (tab : string)
| CategoryClick (cat : Category)
| MapToggle
| ManageToggle
| LocationResolved (loc : GeoCoordinate)
| UpdatePhoto (p : Photo)
| DeletePhoto (photoId : string)
| TimerFired
| SentinelVisible.

Definition step (e : Event) (s : AppState) : AppState :=
  match e with
  | TabClick tab => render false s (handleTabClick tab s)
  | CategoryClick cat => render false s (setActiveCategory cat s)
  | MapToggle => render false s (toggleMap s)
  | ManageToggle => render false s (toggleManageMode s)
  | LocationResolved loc =>
      match pendingLocation s with
      | O => s
      | S _ => render true s (locationResolved loc s)
      end
  | UpdatePhoto p => render true s (handleUpdatePhoto p s)
  | DeletePhoto photoId => render true s (handleDeletePhoto photoId s)
  | TimerFired => advance s
  | SentinelVisible =>
      match viewMode s with
      | map_view => s
      | grid => advance s
      end
  end.

(** The state after the first render of [App] over a loaded collection. *)
Definition mount (loaded : list Photo) (g : RNG) : AppState :=
  let (view, g') := filteredPhotos loaded ALL TAB_LATEST 0 None g in
  mkApp loaded ALL TAB_LATEST grid false None PAGE_SIZE 0 None view 0 g'.

Inductive reachable (loaded : list Photo) (g : RNG) : AppState -> Prop :=
| reach_mount : reachable loaded g (mount loaded g)
| reach_step : forall s e, reachable loaded g s -> reachable loaded g (step e s).

(** ** Notions used to state the properties *)

Definition rng0 : RNG := mkRNG (fun _ => 0.5) 0.

(** The distance from the user to a photo whose two coordinates are
    present (spec, section 8); [None] when one is missing. *)
Definition actualDistance (user : GeoCoordinate) (p : Photo) : option number :=
  match latitude (exif p), longitude (exif p) with
  | Some la, Some lo =>
      Some (getDistanceFromLatLonInKm (lat user) (lng user) la lo)
  | _, _ => None
  end.

Definition hasCoordinates (p : Photo) : bool :=
  match latitude (exif p), longitude (exif p) with
  | Some _, Some _ => true
  | _, _ => false
  end.

Definition hasRating (r : number) (p : Photo) : bool := Reqb (orZero (rating p)) r.

(** A photo taken at the given place, for the worked examples. *)
Definition photoAt (name : string) (la lo : option number) : Photo :=
  mkPhoto name ("https://picsum.photos/seed/" ++ name ++ "/800/600")%string name
    LANDSCAPE (Some 800) (Some 600) (Some 4)
    (mkExif "Leica M11" "Summilux 35mm" "35mm" "f/5.6" "1/250s" "100" name
       "2023-10-12" la lo).

Definition alps : Photo := photoAt "alps" (Some 46.8182) (Some 8.2275).
Definition unlocated : Photo := photoAt "unlocated" None None.
Definition equator : Photo := photoAt "equator" (Some 0) (Some 10).
Definition north : Photo := photoAt "north" (Some 10) (Some 10).

(** The cached view is the composition of the current inputs. *)
Definition coherent (s : AppState) : Prop :=
  exists g, memo s = fst (filteredPhotos (photos s) (activeCategory s) (activeTab s)
                            (shuffleTrigger s) (userLocation s) g).

(** An event changed one of the inputs that define the composition. *)
Definition recomposed (old new : AppState) : Prop :=
  activeCategory new <> activeCategory old
  \/ activeTab new <> activeTab old
  \/ shuffleTrigger new <> shuffleTrigger old.


(** The photos of a collection that are network references. *)
Definition networkPhotos (collection : list Photo) : list Photo :=
  filter (fun p => negb (isInline p)) collection.

(** The quota recovery as the spec words it (sections 4.2 and 8): after a
    first write that fails for quota, a collection with an inline photo
    ends up persisted without its inline photos and the caller is told of
    the cleanup and of the reload; a collection without one is reported as
    exhausted and nothing else is done. *)
Definition quotaRecovery_claim (collection : list Photo) (st : Storage) : Prop :=
  forall e, rejects st collection = Some e -> isQuotaExceeded e = true ->
    let (st', effects) := savePhotos collection st in
    if existsb isInline collection then
      lumina_photos st' = Some (networkPhotos collection)
      /\ In (alert MSG_CLEANED) effects /\ In location_reload effects
    else
      st' = st /\ In (alert MSG_EXHAUSTED) effects /\ ~ In location_reload effects.

Definition QuotaExceededError : Error := mkError "QuotaExceededError" 22.

(** A storage that is full, and one with room for a single photo. *)
Definition fullStorage : Storage := mkStorage None (fun _ => Some QuotaExceededError).
Definition smallStorage : Storage :=
  mkStorage None
    (fun value => if (1 <? List.length value)%nat then Some QuotaExceededError else None).

Definition inlinePhoto : Photo :=
  mkPhoto "inline" "data:image/png;base64,iVBORw0KGgo=" "inline" LANDSCAPE
    (Some 800) (Some 600) (Some 4)
    (mkExif "" "" "" "" "" "" "" "" None None).

(** The seed in its JSON form, for one outcome of the random offsets and
    with the names of the constructors as values of the enumeration. *)
Definition Category_name (c : Category) : string :=
  match c with
  | ALL => "ALL"
  | LANDSCAPE => "LANDSCAPE"
  | MACRO => "MACRO"
  | HORIZONTAL => "HORIZONTAL"
  | VERTICAL => "VERTICAL"
  | OTHER label => label
  end.

Definition SEED : list JSON :=
  List.map (photo_to_json Category_name) (fst (INITIAL_PHOTOS rng0)).

(** ** The single-photo viewer (App.tsx, lines 375-402)

    [Array.prototype.findIndex] answers -1 when nothing matches, and the
    handlers compare that index with [length - 1]: indices are integers. *)
Fixpoint findIndex {A : Type} (f : A -> bool) (l : list A) : Z :=
  match l with
  | [] => (-1)%Z
  | x :: l' =>
      if f x then 0%Z
      else let i := findIndex f l' in if (i <? 0)%Z then (-1)%Z else (i + 1)%Z
  end.

(** [array[i]]: [undefined], here [None], outside the array. *)
Definition at_index {A : Type} (l : list A) (i : Z) : option A :=
  if (i <? 0)%Z then None else nth_error l (Z.to_nat i).

Inductive SlideDirection : Type := slide_left | slide_right.

Definition handlePhotoClick (photo : Photo) (s : AppState) : AppState :=
  if isManageMode s then s else setSelectedPhoto (Some photo) s.

(** The handlers read [filteredPhotos] of the current render: the cached
    view.  They return the state and the new [slideDirection]. *)
Definition handleNextPhoto (s : AppState) (slideDirection : SlideDirection)
  : AppState * SlideDirection :=
  match selectedPhoto s with
  | None => (s, slideDirection)
  | Some sel =>
      let currentIndex := findIndex (fun p => String.eqb (id p) (id sel)) (memo s) in
      if (currentIndex <? Z.of_nat (List.length (memo s)) - 1)%Z
      then (setSelectedPhoto (at_index (memo s) (currentIndex + 1)) s, slide_right)
      else (s, slide_right)
  end.

Definition handlePrevPhoto (s : AppState) (slideDirection : SlideDirection)
  : AppState * SlideDirection :=
  match selectedPhoto s with
  | None => (s, slideDirection)
  | Some sel =>
      let currentIndex := findIndex (fun p => String.eqb (id p) (id sel)) (memo s) in
      if (0 <? currentIndex)%Z
      then (setSelectedPhoto (at_index (memo s) (currentIndex - 1)) s, slide_left)
      else (s, slide_left)
  end.

Definition currentIndex (s : AppState) : Z :=
  match selectedPhoto s with
  | Some sel => findIndex (fun p => String.eqb (id p) (id sel)) (memo s)
  | None => (-1)%Z
  end.



(** The ids of a list of photos, and the photos of a list with a given id. *)
Definition ids (l : list Photo) : list string := List.map id l.

Definition withId (photoId : string) (p : Photo) : bool := String.eqb (id p) photoId.

(** The test of lines 279 and 282: both coordinates present and not 0. *)
Definition located (p : Photo) : bool :=
  truthy (latitude (exif p)) && truthy (longitude (exif p)).

(** A photo with its two coordinates taken away, and the collection seen
    as the test of lines 279 and 282 sees it: the photos that fail the
    test without their coordinates. *)
Definition withoutCoordinates (p : Photo) : Photo :=
  mkPhoto (id p) (url p) (title p) (category p) (width p) (height p) (rating p)
    (mkExif (camera (exif p)) (lens (exif p)) (focalLength (exif p))
       (aperture (exif p)) (shutterSpeed (exif p)) (iso (exif p))
       (location (exif p)) (date (exif p)) None None).

Definition forgetUnusable (p : Photo) : Photo :=
  if located p then p else withoutCoordinates p.

(** The photos that a tab keeps of the category-filtered collection. *)
Definition kept (tab : string) (candidates : list Photo) : list Photo :=
  if String.eqb tab TAB_CURATED
  then filter (fun p => geb (orZero (rating p)) 4) candidates
  else candidates.

(** The two events that advance the window. *)
Definition isTrigger (e : Event) : Prop := e = TimerFired \/ e = SentinelVisible.

(** The state after a sequence of events. *)
Definition run (events : list Event) (s : AppState) : AppState :=
  fold_left (fun st e => step e st) events s.

(** The events of the single-photo viewer: a click on a photo of the
    grid or of the map, the two arrows and the close button (line 665). *)
Inductive ViewerEvent : Type :=
| PhotoClick (photo : Photo)
| NextPhoto
| PrevPhoto
| CloseModal.

Definition viewerStep (e : ViewerEvent) (s : AppState) : AppState :=
  match e with
  | PhotoClick photo => handlePhotoClick photo s
  | NextPhoto => fst (handleNextPhoto s slide_right)
  | PrevPhoto => fst (handlePrevPhoto s slide_left)
  | CloseModal => setSelectedPhoto None s
  end.

(** The states of a session: those of the feed, with the viewer's events
    in between.  Only a photo of the current view can be clicked. *)
Inductive session (loaded : list Photo) (g : RNG) : AppState -> Prop :=
| session_mount : session loaded g (mount loaded g)
| session_feed : forall s e, session loaded g s -> session loaded g (step e s)
| session_viewer : forall s e,
    session loaded g s ->
    (forall photo, e = PhotoClick photo -> In photo (memo s)) ->
    session loaded g (viewerStep e s).

Definition isAlert (e : Effect) : bool :=
  match e with
  | alert _ => true
  | _ => false
  end.

(** * Properties *)

(** ** Numbers *)

Lemma geb_true a b : geb a b = true <-> b <= a.
Proof. unfold geb. destruct (Rle_dec b a); split; intros; try lra; congruence. Qed.

Lemma gtb_true a b : gtb a b = true <-> b < a.
Proof. unfold gtb. destruct (Rlt_dec b a); split; intros; try lra; congruence. Qed.

Lemma gtb_false a b : gtb a b = false <-> a <= b.
Proof. unfold gtb. destruct (Rlt_dec b a); split; intros; try lra; congruence. Qed.

Lemma truthy_some v : truthy (Some v) = true <-> v <> 0.
Proof. unfold truthy. destruct (Req_dec_T v 0); split; intros; congruence. Qed.

Lemma truthy_zero : truthy (Some 0) = false.
Proof. unfold truthy. destruct (Req_dec_T 0 0); congruence. Qed.

Lemma geb_false a b : geb a b = false <-> a < b.
Proof. unfold geb. destruct (Rle_dec b a); split; intros; try lra; congruence. Qed.

(** Settles the tests on numerals that an example leaves behind. *)
Ltac eval_number :=
  repeat match goal with
    | |- context [gtb ?a ?b] =>
        first [ rewrite (proj2 (gtb_true a b)) by lra
              | rewrite (proj2 (gtb_false a b)) by lra ]
    | |- context [geb ?a ?b] =>
        first [ rewrite (proj2 (geb_true a b)) by lra
              | rewrite (proj2 (geb_false a b)) by lra ]
    end.

(** ** GeoDistance *)

Lemma Math_atan2_bound y x : - PI <= Math_atan2 y x <= PI.
Proof.
  pose proof PI_RGT_0 as HPI.
  pose proof (atan_bound (y / x)) as Hb.
  unfold Math_atan2.
  destruct (Rlt_dec 0 x); [lra |].
  destruct (Rlt_dec x 0) as [Hx |].
  - assert (Hx' : / x < 0) by (apply Rinv_lt_0_compat; exact Hx).
    destruct (Rle_dec 0 y) as [Hy | Hy].
    + assert (atan (y / x) <= 0).
      { rewrite <- atan_0. destruct Hy as [Hy | <-].
        - left. apply atan_increasing. unfold Rdiv. nra.
        - right. f_equal. unfold Rdiv. ring. }
      lra.
    + assert (0 < atan (y / x)).
      { rewrite <- atan_0. apply atan_increasing. unfold Rdiv. nra. }
      lra.
  - destruct (Rlt_dec 0 y); [lra |].
    destruct (Rlt_dec y 0); lra.
Qed.

Lemma Math_atan2_nonneg y x : 0 <= y -> 0 <= x -> 0 <= Math_atan2 y x.
Proof.
  intros Hy Hx. pose proof PI_RGT_0 as HPI. unfold Math_atan2.
  destruct (Rlt_dec 0 x) as [Hx' |].
  - rewrite <- atan_0. destruct Hy as [Hy | <-].
    + left. apply atan_increasing. apply Rdiv_lt_0_compat; assumption.
    + right. f_equal. unfold Rdiv. ring.
  - destruct (Rlt_dec x 0); [lra |].
    destruct (Rlt_dec 0 y); [lra |].
    destruct (Rlt_dec y 0); lra.
Qed.

Lemma Math_atan2_pos y x : 0 < y -> 0 <= x -> 0 < Math_atan2 y x.
Proof.
  intros Hy Hx. pose proof PI_RGT_0 as HPI. unfold Math_atan2.
  destruct (Rlt_dec 0 x) as [Hx' |].
  - rewrite <- atan_0. apply atan_increasing. apply Rdiv_lt_0_compat; assumption.
  - destruct (Rlt_dec x 0); [lra |].
    destruct (Rlt_dec 0 y); lra.
Qed.

(** The distance never reaches the value 99999 that stands for a missing
    location: it lies between 0 and half the circumference of the sphere. *)
Lemma getDistance_range lat1 lon1 lat2 lon2 :
  0 <= getDistanceFromLatLonInKm lat1 lon1 lat2 lon2 <= 6371 * 2 * PI.
Proof.
  unfold getDistanceFromLatLonInKm. cbv zeta.
  set (a := _ + _).
  pose proof (Math_atan2_bound (sqrt a) (sqrt (1 - a))) as Hb.
  pose proof (Math_atan2_nonneg (sqrt a) (sqrt (1 - a)) (sqrt_pos _) (sqrt_pos _)).
  split; nra.
Qed.

Lemma getDistance_lt_sentinel lat1 lon1 lat2 lon2 :
  getDistanceFromLatLonInKm lat1 lon1 lat2 lon2 < 99999.
Proof.
  pose proof (getDistance_range lat1 lon1 lat2 lon2).
  pose proof PI_4. lra.
Qed.

Lemma getDistance_same la lo : getDistanceFromLatLonInKm la lo la lo = 0.
Proof.
  unfold getDistanceFromLatLonInKm, deg2rad. cbv zeta.
  replace ((la - la) * (PI / 180) / 2) with 0 by lra.
  replace ((lo - lo) * (PI / 180) / 2) with 0 by lra.
  rewrite sin_0.
  replace (0 * 0 + _ * _ * 0 * 0) with 0 by ring.
  rewrite sqrt_0, Rminus_0_r, sqrt_1.
  unfold Math_atan2. destruct (Rlt_dec 0 1); [| lra].
  replace (0 / 1) with 0 by lra. rewrite atan_0. ring.
Qed.

(** ** Array.prototype.sort *)

Section SortFacts.
Context {A : Type}.

Lemma insertM_pure (compare : A -> A -> number) x l g :
  insertM (fun a b => ret (compare a b)) x l g = (insert_by compare x l, g).
Proof.
  induction l as [| y l IH]; simpl; [reflexivity |].
  unfold bind, ret in *. destruct (gtb (compare x y) 0); [| reflexivity].
  rewrite IH. reflexivity.
Qed.

Lemma Array_sort_pure (compare : A -> A -> number) l g :
  Array_sort (fun a b => ret (compare a b)) l g = (sort_by compare l, g).
Proof.
  induction l as [| x l IH]; simpl; [reflexivity |].
  unfold bind. rewrite IH. apply insertM_pure.
Qed.

(** Whatever the comparator answers, sorting only rearranges. *)
Lemma insertM_Permutation (comparefn : A -> A -> Rand number) x l :
  forall g, Permutation (x :: l) (fst (insertM comparefn x l g)).
Proof.
  induction l as [| y l IH]; intros g; simpl.
  - apply Permutation_refl.
  - unfold bind. destruct (comparefn x y g) as [v g1].
    destruct (gtb v 0).
    + specialize (IH g1). destruct (insertM comparefn x l g1) as [r g2].
      simpl in *. rewrite perm_swap. apply perm_skip. exact IH.
    + apply Permutation_refl.
Qed.

Lemma Array_sort_Permutation (comparefn : A -> A -> Rand number) l :
  forall g, Permutation l (fst (Array_sort comparefn l g)).
Proof.
  induction l as [| x l IH]; intros g; simpl.
  - apply perm_nil.
  - unfold bind. specialize (IH g).
    destruct (Array_sort comparefn l g) as [s g1]. simpl in IH.
    rewrite <- insertM_Permutation. apply perm_skip. exact IH.
Qed.

Lemma sort_by_Permutation (compare : A -> A -> number) l :
  Permutation l (sort_by compare l).
Proof.
  pose proof (Array_sort_Permutation (fun a b => ret (compare a b)) l
                (mkRNG (fun _ => 0) 0)) as H.
  rewrite Array_sort_pure in H. exact H.
Qed.

(** A comparator that subtracts keys sorts by ascending key, stably. *)
Variable key : A -> number.
Variable compare : A -> A -> number.
Hypothesis compare_key : forall a b, compare a b = key a - key b.

Let ascending (a b : A) : Prop := key a <= key b.

Lemma insert_by_In x y l : In y (insert_by compare x l) -> y = x \/ In y l.
Proof.
  intros H. apply (Permutation_in (l' := x :: l)) in H.
  - destruct H; auto.
  - apply Permutation_sym.
    pose proof (insertM_Permutation (fun a b => ret (compare a b)) x l
                  (mkRNG (fun _ => 0) 0)) as HP.
    rewrite insertM_pure in HP. exact HP.
Qed.

Lemma insert_by_sorted x l :
  StronglySorted ascending l -> StronglySorted ascending (insert_by compare x l).
Proof.
  induction 1 as [| y l Hs IH Hall]; simpl.
  - constructor; constructor.
  - destruct (gtb (compare x y) 0) eqn:E.
    + apply gtb_true in E. rewrite compare_key in E.
      constructor; [exact IH |].
      rewrite Forall_forall in *. intros z Hz.
      apply insert_by_In in Hz. destruct Hz as [-> | Hz].
      * unfold ascending. lra.
      * apply Hall, Hz.
    + apply gtb_false in E. rewrite compare_key in E.
      constructor; [constructor; assumption |].
      constructor; [unfold ascending; lra |].
      rewrite Forall_forall in *. intros z Hz.
      specialize (Hall z Hz). unfold ascending in *. lra.
Qed.

Lemma sort_by_sorted l : StronglySorted ascending (sort_by compare l).
Proof.
  induction l as [| x l IH]; simpl; [constructor | apply insert_by_sorted, IH].
Qed.

Lemma insert_by_stable v x l :
  filter (fun a => Reqb (key a) v) (insert_by compare x l)
  = filter (fun a => Reqb (key a) v) (x :: l).
Proof.
  induction l as [| y l IH]; [reflexivity |].
  cbn [insert_by]. destruct (gtb (compare x y) 0) eqn:E; [| reflexivity].
  apply gtb_true in E. rewrite compare_key in E.
  cbn [filter] in *. rewrite IH.
  unfold Reqb.
  destruct (Req_dec_T (key x) v), (Req_dec_T (key y) v); try reflexivity.
  lra.
Qed.

Lemma sort_by_stable v l :
  filter (fun a => Reqb (key a) v) (sort_by compare l)
  = filter (fun a => Reqb (key a) v) l.
Proof.
  induction l as [| x l IH]; [reflexivity |].
  cbn [sort_by]. rewrite insert_by_stable. cbn [filter]. rewrite IH. reflexivity.
Qed.
End SortFacts.

(** ** FeedComposer *)

Lemma StronglySorted_weaken {A : Type} (P Q : A -> A -> Prop) l :
  (forall a b, P a b -> Q a b) -> StronglySorted P l -> StronglySorted Q l.
Proof.
  intros HPQ. induction 1 as [| x l Hs IH Hall]; constructor; [exact IH |].
  eapply Forall_impl; [| exact Hall]. intros b. apply HPQ.
Qed.

Lemma filteredPhotos_curated collection cat epoch geo g :
  filteredPhotos collection cat TAB_CURATED epoch geo g
  = (sort_by ratingCompare
       (filter (fun p => geb (orZero (rating p)) 4)
          (filter (categoryFilter cat) collection)), g).
Proof. unfold filteredPhotos. simpl String.eqb. cbv iota. apply Array_sort_pure. Qed.

Lemma filteredPhotos_latest collection cat epoch geo g :
  filteredPhotos collection cat TAB_LATEST epoch geo g
  = (filter (categoryFilter cat) collection, g).
Proof. reflexivity. Qed.

Lemma filteredPhotos_shuffle collection cat epoch geo g :
  filteredPhotos collection cat TAB_SHUFFLE epoch geo g
  = Array_sort randomCompare (filter (categoryFilter cat) collection) g.
Proof. reflexivity. Qed.

Lemma filteredPhotos_nearby collection cat epoch user g :
  filteredPhotos collection cat TAB_NEARBY epoch (Some user) g
  = (sort_by (distanceCompare TAB_NEARBY user)
       (filter (categoryFilter cat) collection), g).
Proof. unfold filteredPhotos. simpl String.eqb. cbv iota. apply Array_sort_pure. Qed.

Lemma filteredPhotos_faraway collection cat epoch user g :
  filteredPhotos collection cat TAB_FARAWAY epoch (Some user) g
  = (sort_by (distanceCompare TAB_FARAWAY user)
       (filter (categoryFilter cat) collection), g).
Proof. unfold filteredPhotos. simpl String.eqb. cbv iota. apply Array_sort_pure. Qed.

(** Outside the Shuffle tab the view is a function of the five inputs, and
    the state of [Math.random] is left as it was. *)
Lemma filteredPhotos_pure collection cat tab epoch geo :
  tab <> TAB_SHUFFLE ->
  exists view, forall g, filteredPhotos collection cat tab epoch geo g = (view, g).
Proof.
  intros Htab. unfold filteredPhotos.
  destruct (String.eqb tab TAB_CURATED).
  { eexists. intros g. apply Array_sort_pure. }
  destruct (String.eqb tab TAB_LATEST).
  { eexists. reflexivity. }
  destruct (String.eqb tab TAB_SHUFFLE) eqn:E.
  { apply String.eqb_eq in E. contradiction. }
  destruct (String.eqb tab TAB_NEARBY || String.eqb tab TAB_FARAWAY).
  - destruct geo as [user |].
    + eexists. intros g. apply Array_sort_pure.
    + eexists. reflexivity.
  - eexists. reflexivity.
Qed.

Lemma sortDistance_located user p la lo :
  latitude (exif p) = Some la -> longitude (exif p) = Some lo ->
  la <> 0 -> lo <> 0 ->
  sortDistance user p = getDistanceFromLatLonInKm (lat user) (lng user) la lo.
Proof.
  intros Hla Hlo Hla0 Hlo0. unfold sortDistance. rewrite Hla, Hlo.
  rewrite (proj2 (truthy_some la) Hla0), (proj2 (truthy_some lo) Hlo0).
  reflexivity.
Qed.

Lemma sortDistance_unlocated user p :
  hasCoordinates p = false -> sortDistance user p = 99999.
Proof.
  unfold sortDistance, hasCoordinates.
  destruct (latitude (exif p)); [destruct (longitude (exif p)) |];
    try discriminate; intros _; simpl; try reflexivity.
  rewrite andb_false_r. reflexivity.
Qed.

Lemma getDistance_north_pos :
  0 < getDistanceFromLatLonInKm 0 10 10 10.
Proof.
  unfold getDistanceFromLatLonInKm, deg2rad. cbv zeta.
  replace ((10 - 10) * (PI / 180) / 2) with 0 by lra.
  rewrite sin_0.
  set (h := sin ((10 - 0) * (PI / 180) / 2)).
  set (a := h * h + _).
  assert (Hh : 0 < h).
  { apply sin_gt_0; pose proof PI_RGT_0; lra. }
  assert (Ha : 0 < a) by (subst a; nra).
  pose proof (Math_atan2_pos (sqrt a) (sqrt (1 - a)) (sqrt_lt_R0 a Ha) (sqrt_pos _)).
  lra.
Qed.

Lemma sortDistance_zero user p :
  latitude (exif p) = Some 0 \/ longitude (exif p) = Some 0 ->
  sortDistance user p = 99999.
Proof.
  intros Hzero. unfold sortDistance.
  destruct Hzero as [-> | ->]; rewrite truthy_zero;
    [reflexivity | rewrite andb_false_r; reflexivity].
Qed.

(** C6. In Curated mode, whatever the collection and the category filter,
    every photo of the composed view has a rating of at least 4, the view
    is sorted by non-increasing rating, photos of equal rating stand in
    the order they had in the collection, and nothing but the photos that
    pass the two filters is in the view. *)
Theorem curated_rated_sorted_stable (collection : list Photo) (cat : Category)
    (epoch : nat) (geo : option GeoCoordinate) (g : RNG) :
  let candidates := filter (categoryFilter cat) collection in
  let view := fst (filteredPhotos collection cat TAB_CURATED epoch geo g) in
  Forall (fun p => exists r, rating p = Some r /\ 4 <= r) view
  /\ StronglySorted (fun a b => orZero (rating b) <= orZero (rating a)) view
  /\ (forall r, filter (hasRating r) view
                = filter (hasRating r)
                    (filter (fun p => geb (orZero (rating p)) 4) candidates))
  /\ Permutation (filter (fun p => geb (orZero (rating p)) 4) candidates) view.
Proof.
  intros candidates view. subst view. rewrite filteredPhotos_curated.
  fold candidates. cbn [fst].
  set (rated := filter _ candidates).
  assert (Hkey : forall a b,
             ratingCompare a b = - orZero (rating a) - - orZero (rating b)).
  { intros a b. unfold ratingCompare. ring. }
  repeat split.
  - rewrite Forall_forall. intros p Hp.
    apply (Permutation_in (l' := rated)) in Hp;
      [| apply Permutation_sym, sort_by_Permutation].
    apply filter_In in Hp. destruct Hp as [_ Hp]. apply geb_true in Hp.
    destruct (rating p) as [r |]; simpl in Hp; [eauto | lra].
  - eapply StronglySorted_weaken;
      [| exact (sort_by_sorted _ _ Hkey rated)].
    cbv beta. intros a b H. lra.
  - intros r.
    assert (E : forall l, filter (hasRating r) l
                          = filter (fun a => Reqb (- orZero (rating a)) (- r)) l).
    { intros l. apply filter_ext. intros p. unfold hasRating, Reqb.
      destruct (Req_dec_T (orZero (rating p)) r),
               (Req_dec_T (- orZero (rating p)) (- r)); try reflexivity; lra. }
    rewrite !E. apply (sort_by_stable _ _ Hkey).
  - apply sort_by_Permutation.
Qed.

(** C8. Outside Shuffle mode, composing twice with the same collection,
    category filter, tab, geo state and shuffle epoch gives the same view:
    the view does not depend on the state of the random source, and the
    second of two successive compositions returns what the first did. *)
Theorem compose_deterministic (collection : list Photo) (cat : Category)
    (tab : string) (geo : option GeoCoordinate) (epoch : nat) :
  tab <> TAB_SHUFFLE ->
  (forall g1 g2,
      fst (filteredPhotos collection cat tab epoch geo g1)
      = fst (filteredPhotos collection cat tab epoch geo g2))
  /\ (forall g,
         let first := filteredPhotos collection cat tab epoch geo g in
         let second := filteredPhotos collection cat tab epoch geo (snd first) in
         fst second = fst first).
Proof.
  intros Htab.
  destruct (filteredPhotos_pure collection cat tab epoch geo Htab) as [view Hview].
  split.
  - intros g1 g2. rewrite !Hview. reflexivity.
  - intros g. cbv zeta. rewrite !Hview. reflexivity.
Qed.

Lemma compose_deterministic_witness :
  TAB_NEARBY <> TAB_SHUFFLE
  /\ forall g1 g2,
      fst (filteredPhotos BASE_PHOTOS MACRO TAB_NEARBY 3 (Some (mkGeo 0 10)) g1)
      = fst (filteredPhotos BASE_PHOTOS MACRO TAB_NEARBY 3 (Some (mkGeo 0 10)) g2).
Proof.
  assert (H : TAB_NEARBY <> TAB_SHUFFLE) by (intros E; vm_compute in E; discriminate).
  split; [exact H |].
  exact (proj1 (compose_deterministic BASE_PHOTOS MACRO TAB_NEARBY
                  (Some (mkGeo 0 10)) 3 H)).
Defined.

(** C10. In Shuffle mode, for every collection, category filter and state
    of the random source, the composed view is a permutation of the
    category-filtered collection: the same photos with the same
    multiplicities, hence the same length. *)
Theorem shuffle_is_permutation (collection : list Photo) (cat : Category)
    (epoch : nat) (geo : option GeoCoordinate) (g : RNG) :
  let view := fst (filteredPhotos collection cat TAB_SHUFFLE epoch geo g) in
  Permutation (filter (categoryFilter cat) collection) view
  /\ List.length view = List.length (filter (categoryFilter cat) collection).
Proof.
  cbv zeta. rewrite filteredPhotos_shuffle.
  pose proof (Array_sort_Permutation randomCompare
                (filter (categoryFilter cat) collection) g) as H.
  split; [exact H |]. symmetry. apply Permutation_length, H.
Qed.

Lemma insert_by_map {A : Type} (compare : A -> A -> number) (h : A -> A) x l :
  (forall a b, compare (h a) (h b) = compare a b) ->
  insert_by compare (h x) (List.map h l) = List.map h (insert_by compare x l).
Proof.
  intros Hh. induction l as [| y l IH]; [reflexivity |].
  cbn [List.map insert_by]. rewrite Hh.
  destruct (gtb (compare x y) 0); [| reflexivity].
  cbn [List.map]. rewrite IH. reflexivity.
Qed.

(** Sorting commutes with a change of the elements that the comparator
    does not see. *)
Lemma sort_by_map {A : Type} (compare : A -> A -> number) (h : A -> A) l :
  (forall a b, compare (h a) (h b) = compare a b) ->
  sort_by compare (List.map h l) = List.map h (sort_by compare l).
Proof.
  intros Hh. induction l as [| x l IH]; [reflexivity |].
  cbn [List.map sort_by]. rewrite IH. apply insert_by_map, Hh.
Qed.

Lemma filter_map_same {A : Type} (f : A -> bool) (h : A -> A) l :
  (forall a, f (h a) = f a) ->
  filter f (List.map h l) = List.map h (filter f l).
Proof.
  intros Hh. induction l as [| x l IH]; [reflexivity |].
  cbn [List.map filter]. rewrite Hh.
  destruct (f x); cbn [List.map]; rewrite IH; reflexivity.
Qed.

Lemma sortDistance_withoutCoordinates user p :
  sortDistance user (withoutCoordinates p) = 99999.
Proof. reflexivity. Qed.

Lemma sortDistance_forgetUnusable user p :
  sortDistance user (forgetUnusable p) = sortDistance user p.
Proof.
  unfold forgetUnusable. destruct (located p) eqn:L; [reflexivity |].
  rewrite sortDistance_withoutCoordinates. unfold sortDistance.
  unfold located in L. rewrite L. reflexivity.
Qed.

Lemma distanceCompare_forgetUnusable tab user a b :
  distanceCompare tab user (forgetUnusable a) (forgetUnusable b)
  = distanceCompare tab user a b.
Proof. unfold distanceCompare. rewrite !sortDistance_forgetUnusable. reflexivity. Qed.

Lemma categoryFilter_forgetUnusable cat p :
  categoryFilter cat (forgetUnusable p) = categoryFilter cat p.
Proof. unfold forgetUnusable. destruct (located p); reflexivity. Qed.

(** C9. In Nearby and Faraway modes a photo whose latitude or longitude is
    exactly 0 is treated as a photo without coordinates.  In the
    comparator of either tab its value is 99999, whatever its position
    and the user's, so that the comparator answers as it does for the
    same photo without coordinates; composing a collection gives the view
    that composing it with the coordinates of all such photos taken away
    gives; and next to a photo of lesser value it comes second in Nearby
    and first in Faraway. *)
Theorem zero_coordinate_gets_sentinel (user : GeoCoordinate) (p : Photo) :
  latitude (exif p) = Some 0 \/ longitude (exif p) = Some 0 ->
  sortDistance user p = 99999
  /\ (forall q,
        distanceCompare TAB_NEARBY user p q = 99999 - sortDistance user q
        /\ distanceCompare TAB_NEARBY user q p = sortDistance user q - 99999
        /\ distanceCompare TAB_FARAWAY user p q = sortDistance user q - 99999
        /\ distanceCompare TAB_FARAWAY user q p = 99999 - sortDistance user q)
  /\ (forall tab q,
        distanceCompare tab user p q
        = distanceCompare tab user (withoutCoordinates p) q
        /\ distanceCompare tab user q p
           = distanceCompare tab user q (withoutCoordinates p))
  /\ forgetUnusable p = withoutCoordinates p
  /\ (forall tab collection cat epoch g,
        tab = TAB_NEARBY \/ tab = TAB_FARAWAY ->
        fst (filteredPhotos (List.map forgetUnusable collection) cat tab epoch
               (Some user) g)
        = List.map forgetUnusable
            (fst (filteredPhotos collection cat tab epoch (Some user) g)))
  /\ (forall q epoch g,
        sortDistance user q < 99999 ->
        fst (filteredPhotos [p; q] ALL TAB_NEARBY epoch (Some user) g) = [q; p]
        /\ fst (filteredPhotos [q; p] ALL TAB_FARAWAY epoch (Some user) g) = [p; q]).
Proof.
  intros Hzero.
  pose proof (sortDistance_zero user p Hzero) as Hp.
  split; [exact Hp |].
  split; [| split; [| split; [| split]]].
  - intros q. unfold distanceCompare. simpl String.eqb. cbv iota zeta.
    rewrite Hp. repeat split.
  - intros tab q. unfold distanceCompare.
    rewrite sortDistance_withoutCoordinates, Hp. split; reflexivity.
  - unfold forgetUnusable, located.
    destruct Hzero as [-> | ->]; rewrite truthy_zero;
      [reflexivity | rewrite andb_false_r; reflexivity].
  - intros tab collection cat epoch g [-> | ->].
    + rewrite !filteredPhotos_nearby. cbn [fst].
      rewrite (filter_map_same _ _ _ (categoryFilter_forgetUnusable cat)).
      apply sort_by_map. intros a b. apply distanceCompare_forgetUnusable.
    + rewrite !filteredPhotos_faraway. cbn [fst].
      rewrite (filter_map_same _ _ _ (categoryFilter_forgetUnusable cat)).
      apply sort_by_map. intros a b. apply distanceCompare_forgetUnusable.
  - intros q epoch g Hq. split.
    + rewrite filteredPhotos_nearby.
      cbn [fst filter categoryFilter Category_eqb sort_by insert_by].
      rewrite (proj2 (gtb_true (distanceCompare TAB_NEARBY user p q) 0));
        [reflexivity |].
      unfold distanceCompare. simpl String.eqb. cbv iota zeta. rewrite Hp. lra.
    + rewrite filteredPhotos_faraway.
      cbn [fst filter categoryFilter Category_eqb sort_by insert_by].
      rewrite (proj2 (gtb_true (distanceCompare TAB_FARAWAY user q p) 0));
        [reflexivity |].
      unfold distanceCompare. simpl String.eqb. cbv iota zeta. rewrite Hp. lra.
Qed.

Lemma zero_coordinate_gets_sentinel_witness :
  (latitude (exif equator) = Some 0 \/ longitude (exif equator) = Some 0)
  /\ sortDistance (mkGeo 0 10) equator = 99999
  /\ fst (filteredPhotos [equator; north] ALL TAB_NEARBY 0 (Some (mkGeo 0 10)) rng0)
     = [north; equator].
Proof.
  assert (H : latitude (exif equator) = Some 0 \/ longitude (exif equator) = Some 0)
    by (left; reflexivity).
  pose proof (zero_coordinate_gets_sentinel (mkGeo 0 10) equator H) as Hc.
  split; [exact H |]. split; [exact (proj1 Hc) |].
  refine (proj1 (proj2 (proj2 (proj2 (proj2 (proj2 Hc)))) north 0%nat rng0 _)).
  rewrite (sortDistance_located (mkGeo 0 10) north 10 10 eq_refl eq_refl) by lra.
  apply getDistance_lt_sentinel.
Defined.

(** ** Distance order: what holds in general *)

Lemma sortDistance_le_sentinel user p : sortDistance user p <= 99999.
Proof.
  unfold sortDistance.
  destruct (truthy (latitude (exif p)) && truthy (longitude (exif p)));
    [left; apply getDistance_lt_sentinel | right; reflexivity].
Qed.

(** Nearby: the view ascends in the value the comparator gives a photo. *)
Lemma nearby_ascending collection cat epoch user g :
  StronglySorted (fun a b => sortDistance user a <= sortDistance user b)
    (fst (filteredPhotos collection cat TAB_NEARBY epoch (Some user) g)).
Proof.
  rewrite filteredPhotos_nearby. cbn [fst].
  apply (sort_by_sorted (sortDistance user)). reflexivity.
Qed.

(** Faraway: the view descends in that value, 99999 included. *)
Lemma faraway_descending collection cat epoch user g :
  StronglySorted (fun a b => sortDistance user b <= sortDistance user a)
    (fst (filteredPhotos collection cat TAB_FARAWAY epoch (Some user) g)).
Proof.
  rewrite filteredPhotos_faraway. cbn [fst].
  eapply StronglySorted_weaken;
    [| apply (sort_by_sorted (fun p => - sortDistance user p))].
  - cbv beta. intros a b H. lra.
  - intros a b. unfold distanceCompare. simpl String.eqb. cbv iota zeta. ring.
Qed.

(** Nearby: behind a photo without coordinates there is no photo whose
    two coordinates are present and different from 0. *)
Lemma nearby_unlocated_last collection cat epoch user g front q back :
  fst (filteredPhotos collection cat TAB_NEARBY epoch (Some user) g)
  = front ++ q :: back ->
  hasCoordinates q = false ->
  Forall (fun p => sortDistance user p = 99999) back.
Proof.
  intros Hview Hq.
  pose proof (nearby_ascending collection cat epoch user g) as Hs.
  rewrite Hview in Hs. clear Hview.
  induction front as [| x front IH].
  - apply StronglySorted_inv in Hs. destruct Hs as [_ Hall].
    eapply Forall_impl; [| exact Hall]. cbv beta. intros p Hp.
    rewrite (sortDistance_unlocated user q Hq) in Hp.
    pose proof (sortDistance_le_sentinel user p). lra.
  - apply IH. apply StronglySorted_inv in Hs. exact (proj1 Hs).
Qed.


(** C1 (the code against the claim).  In Faraway mode the comparator is
    reversed as a whole, so the photo without coordinates, whose value
    99999 is the largest, comes first and not last. *)
Theorem faraway_puts_unlocated_first (g : RNG) :
  filteredPhotos [alps; unlocated] ALL TAB_FARAWAY 0
    (Some (mkGeo 31.2304 121.4737)) g
  = ([unlocated; alps], g).
Proof.
  rewrite filteredPhotos_faraway. f_equal.
  cbn [filter categoryFilter Category_eqb sort_by insert_by].
  assert (H : gtb (distanceCompare TAB_FARAWAY (mkGeo 31.2304 121.4737)
                     alps unlocated) 0 = true).
  { apply gtb_true. unfold distanceCompare. simpl String.eqb. cbv iota zeta.
    rewrite (sortDistance_unlocated _ unlocated eq_refl).
    rewrite (sortDistance_located _ alps 46.8182 8.2275 eq_refl eq_refl)
      by lra.
    pose proof (getDistance_lt_sentinel 31.2304 121.4737 46.8182 8.2275).
    simpl lat. simpl lng. lra. }
  rewrite H. reflexivity.
Qed.

(** C5 (the code against the claim).  In Nearby mode, with the user on the
    equator, the photo taken where the user stands has latitude 0: it is
    given 99999 and ends up behind a photo that is farther away, although
    both photos have both coordinates. *)
Theorem nearby_misplaces_zero_latitude (g : RNG) :
  let user := mkGeo 0 10 in
  fst (filteredPhotos [equator; north] ALL TAB_NEARBY 0 (Some user) g)
  = [north; equator]
  /\ hasCoordinates north = true /\ hasCoordinates equator = true
  /\ (exists dn de, actualDistance user north = Some dn
                    /\ actualDistance user equator = Some de /\ de < dn).
Proof.
  cbv zeta. rewrite filteredPhotos_nearby. cbn [fst].
  cbn [filter categoryFilter Category_eqb sort_by insert_by].
  assert (H : gtb (distanceCompare TAB_NEARBY (mkGeo 0 10) equator north) 0 = true).
  { apply gtb_true. unfold distanceCompare. simpl String.eqb. cbv iota zeta.
    rewrite (sortDistance_zero (mkGeo 0 10) equator (or_introl eq_refl)).
    rewrite (sortDistance_located _ north 10 10 eq_refl eq_refl) by lra.
    pose proof (getDistance_lt_sentinel 0 10 10 10).
    simpl lat. simpl lng. lra. }
  rewrite H. repeat split.
  exists (getDistanceFromLatLonInKm 0 10 10 10), (getDistanceFromLatLonInKm 0 10 0 10).
  repeat split. rewrite getDistance_same. apply getDistance_north_pos.
Qed.

(** ** The scenarios of the spec (section 8) *)

(** Ratings 5, 3 and 4 in Curated mode: the photo rated 3 is left out and
    the other two come in the order 5, 4. *)
Example scenario_curated (g : RNG) :
  let rated (name : string) (r : number) :=
    mkPhoto name "" name MACRO (Some 800) (Some 600) (Some r) (exif alps) in
  List.map id
    (fst (filteredPhotos [rated "a" 5; rated "b" 3; rated "c" 4] ALL TAB_CURATED
            0 None g))
  = ["a"; "c"].
Proof.
  cbv zeta. rewrite filteredPhotos_curated.
  cbn [fst filter categoryFilter Category_eqb rating orZero].
  eval_number.
  cbn [sort_by insert_by]. unfold ratingCompare. cbn [rating orZero].
  eval_number. reflexivity.
Qed.

(** A at (0, 0), B without coordinates, the user at (0, 0), Nearby mode:
    the order is A, B.  Both photos are given 99999 and keep their order. *)
Example scenario_nearby (g : RNG) :
  let A := photoAt "A" (Some 0) (Some 0) in
  let B := photoAt "B" None None in
  fst (filteredPhotos [A; B] ALL TAB_NEARBY 0 (Some (mkGeo 0 0)) g) = [A; B]
  /\ sortDistance (mkGeo 0 0) A = 99999.
Proof.
  cbv zeta. rewrite filteredPhotos_nearby.
  cbn [fst filter categoryFilter Category_eqb sort_by insert_by].
  unfold distanceCompare. simpl String.eqb. cbv iota zeta.
  rewrite (sortDistance_zero (mkGeo 0 0) (photoAt "A" (Some 0) (Some 0))
             (or_introl eq_refl)).
  rewrite (sortDistance_unlocated (mkGeo 0 0) (photoAt "B" None None) eq_refl).
  eval_number. split; reflexivity.
Qed.

(** ** PaginationController *)

Lemma Category_eqb_eq c1 c2 : Category_eqb c1 c2 = true <-> c1 = c2.
Proof.
  split.
  - destruct c1, c2; simpl; try discriminate; try reflexivity.
    intros H. apply String.eqb_eq in H. congruence.
  - intros <-. destruct c1; simpl; try reflexivity. apply String.eqb_refl.
Qed.

Lemma resetDue_recomposed old new :
  recomposed old new -> resetDue old new = true.
Proof.
  unfold recomposed, resetDue. intros H.
  destruct (Category_eqb (activeCategory old) (activeCategory new)) eqn:Ec;
    [| reflexivity].
  destruct (String.eqb (activeTab old) (activeTab new)) eqn:Et; [| reflexivity].
  destruct (Nat.eqb (shuffleTrigger old) (shuffleTrigger new)) eqn:Es;
    [| reflexivity].
  apply Category_eqb_eq in Ec. apply String.eqb_eq in Et. apply Nat.eqb_eq in Es.
  destruct H as [H | [H | H]]; congruence.
Qed.

(** A render leaves the inputs of the composition as the handler set them. *)
Lemma render_inputs fresh old new :
  let s := render fresh old new in
  photos s = photos new /\ activeCategory s = activeCategory new
  /\ activeTab s = activeTab new /\ shuffleTrigger s = shuffleTrigger new
  /\ userLocation s = userLocation new /\ viewMode s = viewMode new.
Proof.
  unfold render.
  destruct (filteredPhotos _ _ _ _ _ _) as [view g'].
  destruct (memoStale fresh old new), (resetDue old new); simpl; auto 10.
Qed.

Lemma render_visibleCount fresh old new :
  visibleCount (render fresh old new)
  = if resetDue old new then PAGE_SIZE else visibleCount new.
Proof.
  unfold render.
  destruct (filteredPhotos _ _ _ _ _ _) as [view g'].
  destruct (memoStale fresh old new), (resetDue old new); reflexivity.
Qed.

Lemma render_coherent fresh old new :
  coherent old -> memo new = memo old ->
  (fresh = false -> photos new = photos old /\ userLocation new = userLocation old) ->
  coherent (render fresh old new).
Proof.
  intros [g Hold] Hmemo Hsame. unfold render.
  destruct (memoStale fresh old new) eqn:Estale.
  - destruct (filteredPhotos (photos new) _ _ _ _ (random new)) as [view g'] eqn:E.
    exists (random new).
    destruct (resetDue old new); simpl; rewrite E; reflexivity.
  - unfold memoStale in Estale.
    apply orb_false_elim in Estale. destruct Estale as [Estale Es].
    apply orb_false_elim in Estale. destruct Estale as [Estale Et].
    apply orb_false_elim in Estale. destruct Estale as [Ef Ec].
    apply negb_false_iff in Es, Et, Ec.
    apply Category_eqb_eq in Ec. apply String.eqb_eq in Et. apply Nat.eqb_eq in Es.
    destruct (Hsame Ef) as [Hp Hl].
    exists g.
    destruct (resetDue old new); simpl;
      rewrite Hmemo, Hold, Hp, Hl, Ec, Et, Es; reflexivity.
Qed.

Lemma handleTabClick_keeps tab s :
  memo (handleTabClick tab s) = memo s
  /\ photos (handleTabClick tab s) = photos s
  /\ userLocation (handleTabClick tab s) = userLocation s.
Proof.
  unfold handleTabClick. cbv zeta.
  destruct (viewMode s), (String.eqb tab TAB_SHUFFLE),
    (String.eqb tab TAB_NEARBY || String.eqb tab TAB_FARAWAY);
    simpl; destruct (userLocation s) eqn:E; simpl; auto.
Qed.

Lemma toggleManageMode_keeps s :
  memo (toggleManageMode s) = memo s
  /\ photos (toggleManageMode s) = photos s
  /\ userLocation (toggleManageMode s) = userLocation s.
Proof.
  unfold toggleManageMode.
  destruct (negb (isManageMode s) && ViewMode_eqb (viewMode s) map_view);
    simpl; auto.
Qed.

Lemma handleUpdatePhoto_memo p s : memo (handleUpdatePhoto p s) = memo s.
Proof.
  unfold handleUpdatePhoto.
  destruct (existsb _ (photos s)), (selectedPhoto s) as [sel |];
    try destruct (String.eqb (id sel) (id p)); reflexivity.
Qed.

Lemma handleDeletePhoto_memo photoId s : memo (handleDeletePhoto photoId s) = memo s.
Proof.
  unfold handleDeletePhoto.
  destruct (selectedPhoto s) as [sel |];
    try destruct (String.eqb (id sel) photoId); reflexivity.
Qed.

Lemma advance_coherent s : coherent s -> coherent (advance s).
Proof. intros [g H]. exists g. exact H. Qed.

Lemma step_coherent e s : coherent s -> coherent (step e s).
Proof.
  intros H. destruct e; simpl.
  - destruct (handleTabClick_keeps tab s) as (Hm & Hp & Hl).
    apply render_coherent; auto.
  - apply render_coherent; auto.
  - apply render_coherent; auto.
  - destruct (toggleManageMode_keeps s) as (Hm & Hp & Hl).
    apply render_coherent; auto.
  - destruct (pendingLocation s) eqn:E; [exact H |].
    apply render_coherent; auto; [| discriminate].
    unfold locationResolved. rewrite E. reflexivity.
  - apply render_coherent; auto; [apply handleUpdatePhoto_memo | discriminate].
  - apply render_coherent; auto; [apply handleDeletePhoto_memo | discriminate].
  - apply advance_coherent, H.
  - destruct (viewMode s); [apply advance_coherent, H | exact H].
Qed.

Lemma mount_coherent loaded g : coherent (mount loaded g).
Proof. exists g. reflexivity. Qed.

Lemma reachable_coherent loaded g s : reachable loaded g s -> coherent s.
Proof.
  induction 1 as [| s e _ IH]; [apply mount_coherent | apply step_coherent, IH].
Qed.

Lemma advance_clamped s :
  (visibleCount (advance s) <= List.length (memo (advance s)))%nat.
Proof. simpl. apply Nat.le_min_r. Qed.

Lemma step_reset e s :
  recomposed s (step e s) -> visibleCount (step e s) = PAGE_SIZE.
Proof.
  assert (Hrender : forall fresh new,
             recomposed s (render fresh s new) ->
             visibleCount (render fresh s new) = PAGE_SIZE).
  { intros fresh new Hre. rewrite render_visibleCount.
    destruct (render_inputs fresh s new) as (_ & Hc & Ht & Hs & _).
    unfold recomposed in Hre. rewrite Hc, Ht, Hs in Hre.
    rewrite (resetDue_recomposed s new Hre). reflexivity. }
  assert (Hsame : ~ recomposed s s).
  { unfold recomposed. intros [H | [H | H]]; congruence. }
  destruct e; simpl; try apply Hrender.
  - destruct (pendingLocation s); [intros H; destruct (Hsame H) | apply Hrender].
  - intros H. destruct (Hsame H).
  - destruct (viewMode s); intros H; destruct (Hsame H).
Qed.

(** C2, as the code has it.  In every reachable state the cached view is
    the composition of the current inputs and the exposed slice is no
    longer than the view; an advance by the timer, or by the sentinel in
    grid mode, leaves the window size at most the length of the view; an
    event that changes the category, the tab or the shuffle epoch leaves
    the window size equal to the page size, whatever the length of the
    new view; and at start the window size is the page size, whatever
    the length of the loaded collection. *)
Theorem window_clamped_by_advance (loaded : list Photo) (g : RNG) (s : AppState) :
  reachable loaded g s ->
  coherent s
  /\ (List.length (visiblePhotos s) <= List.length (memo s))%nat
  /\ (visibleCount (step TimerFired s) <= List.length (memo (step TimerFired s)))%nat
  /\ (viewMode s = grid ->
      (visibleCount (step SentinelVisible s)
       <= List.length (memo (step SentinelVisible s)))%nat)
  /\ (forall e, recomposed s (step e s) -> visibleCount (step e s) = PAGE_SIZE)
  /\ visibleCount (mount loaded g) = PAGE_SIZE.
Proof.
  intros Hreach.
  split; [| split; [| split; [| split; [| split]]]].
  - apply (reachable_coherent loaded g), Hreach.
  - unfold visiblePhotos. rewrite length_firstn. apply Nat.le_min_r.
  - apply advance_clamped.
  - intros Hgrid. simpl. rewrite Hgrid. apply advance_clamped.
  - intros e. apply step_reset.
  - unfold mount. destruct (filteredPhotos loaded ALL TAB_LATEST 0 None g).
    reflexivity.
Qed.

Lemma window_clamped_by_advance_witness :
  reachable BASE_PHOTOS rng0 (mount BASE_PHOTOS rng0)
  /\ (visibleCount (step TimerFired (mount BASE_PHOTOS rng0))
      <= List.length (memo (step TimerFired (mount BASE_PHOTOS rng0))))%nat.
Proof.
  assert (H : reachable BASE_PHOTOS rng0 (mount BASE_PHOTOS rng0))
    by apply reach_mount.
  split; [exact H |].
  exact (proj1 (proj2 (proj2 (window_clamped_by_advance BASE_PHOTOS rng0 _ H)))).
Defined.

(** C2 as stated fails: on a collection of three photos, choosing the
    category MACRO resets the window to 9 while the view has one photo. *)
Lemma window_exceeds_short_view :
  let s := step (CategoryClick MACRO) (mount BASE_PHOTOS rng0) in
  reachable BASE_PHOTOS rng0 s
  /\ visibleCount s = 9%nat
  /\ List.length (memo s) = 1%nat
  /\ ~ (visibleCount s <= List.length (memo s))%nat.
Proof.
  cbv zeta.
  split; [apply reach_step, reach_mount |].
  assert (Hv : visibleCount (step (CategoryClick MACRO) (mount BASE_PHOTOS rng0)) = 9%nat)
    by reflexivity.
  assert (Hm : List.length (memo (step (CategoryClick MACRO) (mount BASE_PHOTOS rng0))) = 1%nat)
    by reflexivity.
  rewrite Hv, Hm. repeat split. lia.
Qed.

(** ** PersistentStore *)

Lemma filter_length_lt {A : Type} (f : A -> bool) l :
  (List.length (filter f l) <? List.length l)%nat = existsb (fun a => negb (f a)) l.
Proof.
  induction l as [| a l IH]; [reflexivity |].
  pose proof (filter_length_le f l) as Hle.
  cbn [filter existsb]. destruct (f a); cbn [negb orb List.length].
  - exact IH.
  - apply Nat.ltb_lt. lia.
Qed.

Lemma cleanup_possible collection :
  (List.length (networkPhotos collection) <? List.length collection)%nat
  = existsb isInline collection.
Proof.
  unfold networkPhotos. rewrite filter_length_lt.
  induction collection as [| p l IH]; [reflexivity |].
  cbn [existsb]. rewrite negb_involutive, IH. reflexivity.
Qed.

(** C3, as the code has it.  After a first write that fails for quota: if
    the collection has an inline photo and the storage accepts the
    retried write, exactly the network-referenced photos are persisted,
    in their order, and the caller gets the cleanup notice and the
    reload; if it refuses the retried write too, nothing is persisted and
    the caller gets the save-failed notice; if the collection has no
    inline photo, nothing is persisted and the caller gets the
    storage-exhausted notice, with no reload. *)
Theorem quota_recovery (collection : list Photo) (st : Storage) (e : Error) :
  rejects st collection = Some e -> isQuotaExceeded e = true ->
  let warned :=
    console_warn
      "LocalStorage Quota Exceeded. Attempting to clean up old Base64 images..." in
  let kept := networkPhotos collection in
  (existsb isInline kept = false
   /\ forall p, In p kept <-> In p collection /\ isInline p = false)
  /\ if existsb isInline collection then
       match rejects st kept with
       | None =>
           lumina_photos (fst (savePhotos collection st)) = Some kept
           /\ snd (savePhotos collection st)
              = [warned; alert MSG_CLEANED; location_reload]
       | Some _ =>
           savePhotos collection st
           = (st, [warned; console_error "Failed to save even after cleanup";
                   alert MSG_SAVE_FAILED])
       end
     else savePhotos collection st = (st, [warned; alert MSG_EXHAUSTED]).
Proof.
  intros Hrej Hquota warned kept. split.
  - split.
    + subst kept. clear Hrej. unfold networkPhotos.
      induction collection as [| p l IH]; [reflexivity |].
      simpl. destruct (isInline p) eqn:Ep; simpl; [| rewrite Ep]; exact IH.
    + intros p. subst kept. unfold networkPhotos.
      rewrite filter_In, negb_true_iff. tauto.
  - unfold savePhotos, setItem. rewrite Hrej, Hquota.
    fold (networkPhotos collection). rewrite cleanup_possible. fold kept.
    destruct (existsb isInline collection); [| reflexivity].
    destruct (rejects st kept); [reflexivity | split; reflexivity].
Qed.

Lemma quota_recovery_witness :
  rejects smallStorage [inlinePhoto; alps] = Some QuotaExceededError
  /\ isQuotaExceeded QuotaExceededError = true
  /\ lumina_photos (fst (savePhotos [inlinePhoto; alps] smallStorage)) = Some [alps].
Proof.
  assert (H1 : rejects smallStorage [inlinePhoto; alps] = Some QuotaExceededError)
    by reflexivity.
  assert (H2 : isQuotaExceeded QuotaExceededError = true) by reflexivity.
  split; [exact H1 |]. split; [exact H2 |].
  exact (proj1 (proj2 (quota_recovery [inlinePhoto; alps] smallStorage
                         QuotaExceededError H1 H2))).
Defined.

(** C3 as stated fails: when the storage is full the retried write is
    refused too, nothing is persisted and no cleanup is announced. *)
Lemma retried_write_can_fail :
  savePhotos [inlinePhoto; alps] fullStorage
  = (fullStorage,
     [console_warn
        "LocalStorage Quota Exceeded. Attempting to clean up old Base64 images...";
      console_error "Failed to save even after cleanup";
      alert MSG_SAVE_FAILED])
  /\ ~ quotaRecovery_claim [inlinePhoto; alps] fullStorage.
Proof.
  assert (H : savePhotos [inlinePhoto; alps] fullStorage
              = (fullStorage,
                 [console_warn
                    "LocalStorage Quota Exceeded. Attempting to clean up old Base64 images...";
                  console_error "Failed to save even after cleanup";
                  alert MSG_SAVE_FAILED])) by reflexivity.
  split; [exact H |].
  intros Hclaim. specialize (Hclaim QuotaExceededError eq_refl eq_refl).
  rewrite H in Hclaim. cbn [existsb isInline orb] in Hclaim.
  change (String.prefix "data:image" (url inlinePhoto)) with true in Hclaim.
  cbn [orb] in Hclaim. destruct Hclaim as [Hslot _]. discriminate Hslot.
Qed.

Lemma load_unfold (INITIAL : list JSON) (saved : option string) :
  load INITIAL saved
  = match saved with
    | Some text =>
        match JSON_parse text with
        | Some parsed => if Array_isArray parsed then elements parsed else INITIAL
        | None => INITIAL
        end
    | None => INITIAL
    end.
Proof.
  unfold load. destruct saved as [text |]; [| reflexivity].
  destruct (String.eqb text "") eqn:E; [| reflexivity].
  apply String.eqb_eq in E. subst text. reflexivity.
Qed.

(** C4, as the code has it.  [load] returns the elements of the parsed
    value exactly when the stored text is present and parses as a JSON
    array, whatever the elements are; for a slot that is absent, empty,
    unparsable or not an array it returns the seed.  It is a total
    function: no parse failure leaves it. *)
Theorem load_returns_any_array (INITIAL : list JSON) (saved : option string) :
  load INITIAL saved
  = match saved with
    | Some text =>
        match JSON_parse text with
        | Some (JArray items) => items
        | _ => INITIAL
        end
    | None => INITIAL
    end.
Proof.
  rewrite load_unfold. destruct saved as [text |]; [| reflexivity].
  destruct (JSON_parse text) as [[] |]; reflexivity.
Qed.

(** C4 as stated fails: the stored text [[1]] is an array, not a sequence
    of Photo-shaped records, and [load] returns it where the contract
    asks for the seed. *)
Lemma load_accepts_unshaped_array :
  load SEED (Some "[1]") = [JNumber 1]
  /\ forallb photo_shaped [JNumber 1] = false
  /\ load_contract SEED (Some "[1]") = SEED
  /\ load SEED (Some "[1]") <> load_contract SEED (Some "[1]").
Proof.
  assert (Hparse : JSON_parse "[1]" = Some (JArray [JNumber 1]))
    by (vm_compute; reflexivity).
  assert (Hload : load SEED (Some "[1]") = [JNumber 1]).
  { rewrite load_unfold, Hparse. reflexivity. }
  assert (Hcontract : load_contract SEED (Some "[1]") = SEED).
  { unfold load_contract. rewrite Hparse. reflexivity. }
  repeat split; try assumption.
  rewrite Hload, Hcontract. intros H.
  apply (f_equal (@List.length JSON)) in H. vm_compute in H. discriminate H.
Qed.

(** ** FeedOrchestrator *)

Lemma handleUpdatePhoto_photos p s :
  photos (handleUpdatePhoto p s)
  = if existsb (fun q => String.eqb (id q) (id p)) (photos s)
    then List.map (fun q => if String.eqb (id q) (id p) then p else q) (photos s)
    else p :: photos s.
Proof.
  unfold handleUpdatePhoto. cbv zeta.
  destruct (existsb _ (photos s)), (selectedPhoto s) as [sel |];
    try destruct (String.eqb (id sel) (id p)); reflexivity.
Qed.

(** C7. [handleUpdatePhoto]: when a photo of the collection has the id of
    the given photo, the collection keeps its length and the order of its
    ids, the photo at each position being the given one where the id
    matches and the old one elsewhere; otherwise the given photo is put at
    index 0 in front of the old collection, which is thus one longer with
    its photos in their order. *)
Theorem upsert_replaces_or_prepends (updatedPhoto : Photo) (s : AppState) :
  let prev := photos s in
  let next := photos (handleUpdatePhoto updatedPhoto s) in
  if existsb (fun p => String.eqb (id p) (id updatedPhoto)) prev then
    List.length next = List.length prev
    /\ List.map id next = List.map id prev
    /\ (forall i p, nth_error prev i = Some p ->
          nth_error next i
          = Some (if String.eqb (id p) (id updatedPhoto) then updatedPhoto else p))
  else
    next = updatedPhoto :: prev
    /\ nth_error next 0 = Some updatedPhoto
    /\ List.length next = S (List.length prev)
    /\ (forall i, nth_error next (S i) = nth_error prev i).
Proof.
  cbv zeta. rewrite handleUpdatePhoto_photos.
  destruct (existsb _ (photos s)).
  - repeat split.
    + apply length_map.
    + rewrite map_map. apply map_ext. intros q.
      destruct (String.eqb (id q) (id updatedPhoto)) eqn:E; [| reflexivity].
      apply String.eqb_eq in E. symmetry. exact E.
    + intros i p Hp. rewrite nth_error_map, Hp. reflexivity.
  - repeat split.
Qed.

Lemma upsert_replaces_or_prepends_witness :
  let s := mount [alps; unlocated; equator; north; inlinePhoto] rng0 in
  let fresh := photoAt "fresh" None None in
  List.map id (photos (handleUpdatePhoto fresh s))
  = ["fresh"; "alps"; "unlocated"; "equator"; "north"; "inline"].
Proof.
  intros s fresh.
  pose proof (upsert_replaces_or_prepends fresh s) as H. cbv zeta in H.
  assert (E : existsb (fun p => String.eqb (id p) (id fresh)) (photos s) = false)
    by reflexivity.
  rewrite E in H. destruct H as [H _]. rewrite H. reflexivity.
Defined.

(** * Further properties *)

(** ** GeoDistance *)

(** X1. The distance is symmetric: from the first point to the second it
    is what it is from the second to the first. *)
Theorem getDistance_symmetric (lat1 lon1 lat2 lon2 : number) :
  getDistanceFromLatLonInKm lat1 lon1 lat2 lon2
  = getDistanceFromLatLonInKm lat2 lon2 lat1 lon1.
Proof.
  unfold getDistanceFromLatLonInKm, deg2rad. cbv zeta.
  replace ((lat1 - lat2) * (PI / 180) / 2)
    with (- ((lat2 - lat1) * (PI / 180) / 2)) by lra.
  replace ((lon1 - lon2) * (PI / 180) / 2)
    with (- ((lon2 - lon1) * (PI / 180) / 2)) by lra.
  rewrite !sin_neg.
  set (u := sin ((lat2 - lat1) * (PI / 180) / 2)).
  set (v := sin ((lon2 - lon1) * (PI / 180) / 2)).
  set (c1 := cos (lat1 * (PI / 180))). set (c2 := cos (lat2 * (PI / 180))).
  replace (- u * - u + c2 * c1 * - v * - v) with (u * u + c1 * c2 * v * v) by ring.
  reflexivity.
Qed.

(** ** More on sorting by a key *)

Section KeySort.
Context {A : Type}.
Variable key : A -> number.
Variable compare : A -> A -> number.
Hypothesis compare_key : forall a b, compare a b = key a - key b.

Lemma insert_by_front x l :
  Forall (fun y => key x <= key y) l -> insert_by compare x l = x :: l.
Proof.
  intros H. destruct l as [| y l]; [reflexivity |].
  apply Forall_inv in H. cbn [insert_by].
  rewrite (proj2 (gtb_false (compare x y) 0)); [reflexivity |].
  rewrite compare_key. lra.
Qed.

(** Sorting a list that is already in order leaves it as it is. *)
Lemma sort_by_fixed l :
  StronglySorted (fun a b => key a <= key b) l -> sort_by compare l = l.
Proof.
  induction 1 as [| x l Hs IH Hall]; [reflexivity |].
  cbn [sort_by]. rewrite IH. apply insert_by_front, Hall.
Qed.

Lemma insert_by_filter (f : A -> bool) x l :
  StronglySorted (fun a b => key a <= key b) l ->
  filter f (insert_by compare x l)
  = if f x then insert_by compare x (filter f l) else filter f l.
Proof.
  induction 1 as [| y l Hs IH Hall]; cbn [insert_by filter].
  - destruct (f x); reflexivity.
  - destruct (gtb (compare x y) 0) eqn:E.
    + cbn [filter]. rewrite IH.
      destruct (f x), (f y); try reflexivity.
      cbn [insert_by]. rewrite E. reflexivity.
    + apply gtb_false in E. rewrite compare_key in E.
      cbn [filter]. destruct (f x); [| reflexivity].
      symmetry. apply insert_by_front.
      assert (Hy : Forall (fun z => key x <= key z) (y :: l)).
      { constructor; [lra |]. eapply Forall_impl; [| exact Hall].
        cbv beta. intros z Hz. lra. }
      rewrite Forall_forall in *. intros z Hz.
      apply Hy. change (In z (filter f (y :: l))) in Hz.
      apply filter_In in Hz. exact (proj1 Hz).
Qed.

(** Filtering before the sort or after it gives the same list. *)
Lemma sort_by_filter (f : A -> bool) l :
  sort_by compare (filter f l) = filter f (sort_by compare l).
Proof.
  induction l as [| x l IH]; [reflexivity |].
  cbn [sort_by filter].
  rewrite (insert_by_filter f x _ (sort_by_sorted key compare compare_key l)).
  destruct (f x); cbn [sort_by]; rewrite IH; reflexivity.
Qed.

End KeySort.

(** ** FeedComposer, beyond the claims *)

Lemma ratingCompare_key a b :
  ratingCompare a b = - orZero (rating a) - - orZero (rating b).
Proof. unfold ratingCompare. ring. Qed.

Lemma filter_all {A : Type} (f : A -> bool) l :
  Forall (fun a => f a = true) l -> filter f l = l.
Proof.
  induction 1 as [| a l Ha _ IH]; [reflexivity |].
  cbn [filter]. rewrite Ha, IH. reflexivity.
Qed.

Lemma filter_passes {A : Type} (f : A -> bool) l :
  Forall (fun a => f a = true) (filter f l).
Proof. rewrite Forall_forall. intros a Ha. apply filter_In in Ha. exact (proj2 Ha). Qed.

Lemma Forall_Permutation {A : Type} (P : A -> Prop) l1 l2 :
  Permutation l1 l2 -> Forall P l1 -> Forall P l2.
Proof.
  intros Hp H. rewrite Forall_forall in *. intros a Ha.
  apply H. apply (Permutation_in (l := l2)); [apply Permutation_sym, Hp | exact Ha].
Qed.

Lemma filter_split {A : Type} (f : A -> bool) l :
  Permutation (filter f l ++ filter (fun a => negb (f a)) l) l.
Proof.
  induction l as [| a l IH]; [apply perm_nil |].
  cbn [filter]. destruct (f a); cbn [negb app].
  - apply perm_skip, IH.
  - apply Permutation_sym, Permutation_cons_app, Permutation_sym, IH.
Qed.

(** The view of a tab, whatever the tab: a sort of [kept], or [kept]. *)
Lemma filteredPhotos_Permutation collection cat tab epoch geo g :
  Permutation (kept tab (filter (categoryFilter cat) collection))
    (fst (filteredPhotos collection cat tab epoch geo g)).
Proof.
  unfold filteredPhotos, kept.
  destruct (String.eqb tab TAB_CURATED); [apply Array_sort_Permutation |].
  destruct (String.eqb tab TAB_LATEST); [apply Permutation_refl |].
  destruct (String.eqb tab TAB_SHUFFLE); [apply Array_sort_Permutation |].
  destruct (String.eqb tab TAB_NEARBY || String.eqb tab TAB_FARAWAY);
    [| apply Permutation_refl].
  destruct geo; [apply Array_sort_Permutation | apply Permutation_refl].
Qed.

Lemma kept_passes tab cat collection :
  Forall (fun p => In p collection /\ categoryFilter cat p = true)
    (kept tab (filter (categoryFilter cat) collection)).
Proof.
  rewrite Forall_forall. intros p Hp. unfold kept in Hp.
  destruct (String.eqb tab TAB_CURATED);
    [apply filter_In in Hp; destruct Hp as [Hp _] |];
    apply filter_In in Hp; exact Hp.
Qed.

Lemma kept_length tab cat collection :
  (List.length (kept tab (filter (categoryFilter cat) collection))
   <= List.length collection)%nat.
Proof.
  unfold kept. pose proof (filter_length_le (categoryFilter cat) collection).
  destruct (String.eqb tab TAB_CURATED); [| assumption].
  pose proof (filter_length_le (fun p => geb (orZero (rating p)) 4)
                (filter (categoryFilter cat) collection)). lia.
Qed.

(** X3. In every tab, known or not, and for every state of the random
    source, the view is a rearrangement of the photos of the collection
    that pass the category filter (in Curated mode, of those rated 4 or
    more): no photo is invented, duplicated or taken from outside the
    category, and the view is never longer than the collection. *)
Theorem view_rearranges_kept (collection : list Photo) (cat : Category)
    (tab : string) (epoch : nat) (geo : option GeoCoordinate) (g : RNG) :
  let view := fst (filteredPhotos collection cat tab epoch geo g) in
  Permutation (kept tab (filter (categoryFilter cat) collection)) view
  /\ Forall (fun p => In p collection /\ categoryFilter cat p = true) view
  /\ (List.length view <= List.length collection)%nat.
Proof.
  cbv zeta.
  pose proof (filteredPhotos_Permutation collection cat tab epoch geo g) as Hp.
  split; [exact Hp |]. split.
  - exact (Forall_Permutation _ _ _ Hp (kept_passes tab cat collection)).
  - rewrite <- (Permutation_length Hp). apply kept_length.
Qed.

(** X4. The categories HORIZONTAL and VERTICAL split every collection: a
    photo passes exactly one of the two filters (a square photo, or one
    without dimensions, is horizontal), so the two Latest views together
    are a rearrangement of the collection. *)
Theorem horizontal_vertical_split (collection : list Photo) (epoch : nat)
    (geo : option GeoCoordinate) (g : RNG) :
  let horizontal := fst (filteredPhotos collection HORIZONTAL TAB_LATEST epoch geo g) in
  let vertical := fst (filteredPhotos collection VERTICAL TAB_LATEST epoch geo g) in
  (forall p, categoryFilter HORIZONTAL p = negb (categoryFilter VERTICAL p))
  /\ Permutation (horizontal ++ vertical) collection
  /\ (List.length horizontal + List.length vertical = List.length collection)%nat.
Proof.
  cbv zeta. rewrite !filteredPhotos_latest. cbn [fst].
  assert (Hneg : forall p, categoryFilter HORIZONTAL p
                           = negb (categoryFilter VERTICAL p)).
  { intros p. unfold categoryFilter. cbn [Category_eqb]. unfold geb, gtb.
    destruct (Rle_dec (orZero (height p)) (orZero (width p))),
             (Rlt_dec (orZero (width p)) (orZero (height p)));
      try reflexivity; lra. }
  assert (Hp : Permutation (filter (categoryFilter HORIZONTAL) collection
                            ++ filter (categoryFilter VERTICAL) collection)
                 collection).
  { rewrite (filter_ext (categoryFilter HORIZONTAL)
               (fun p => negb (categoryFilter VERTICAL p)) Hneg).
    eapply Permutation_trans; [apply Permutation_app_comm |].
    apply (filter_split (categoryFilter VERTICAL)). }
  split; [exact Hneg |]. split; [exact Hp |].
  rewrite <- length_app. apply Permutation_length, Hp.
Qed.

Lemma recompose_sorted {A : Type} (key : A -> number) (compare : A -> A -> number)
    (f : A -> bool) l :
  (forall a b, compare a b = key a - key b) ->
  sort_by compare (filter f (sort_by compare (filter f l)))
  = sort_by compare (filter f l).
Proof.
  intros Hkey.
  rewrite (filter_all f (sort_by compare (filter f l))).
  - apply (sort_by_fixed key compare Hkey), (sort_by_sorted key compare Hkey).
  - exact (Forall_Permutation _ _ _ (sort_by_Permutation compare (filter f l))
             (filter_passes f l)).
Qed.

Lemma distance_tab_eqb tab :
  String.eqb tab TAB_NEARBY || String.eqb tab TAB_FARAWAY = true ->
  tab = TAB_NEARBY \/ tab = TAB_FARAWAY.
Proof.
  intros H. apply orb_true_iff in H.
  destruct H as [H | H]; apply String.eqb_eq in H; auto.
Qed.

(** X8. Where no distance is compared (Curated, Latest, an unknown tab,
    and Nearby or Faraway while the location is unresolved) composing is
    idempotent: composing the view again, under the same category, tab
    and location, returns the view. *)
Theorem compose_idempotent (collection : list Photo) (cat : Category)
    (tab : string) (epoch : nat) (geo : option GeoCoordinate) (g g' : RNG) :
  tab <> TAB_SHUFFLE ->
  (tab = TAB_NEARBY \/ tab = TAB_FARAWAY -> geo = None) ->
  let view := fst (filteredPhotos collection cat tab epoch geo g) in
  fst (filteredPhotos view cat tab epoch geo g') = view.
Proof.
  intros Htab Hgeo. cbv zeta. unfold filteredPhotos.
  destruct (String.eqb tab TAB_CURATED).
  { rewrite !Array_sort_pure. cbn [fst].
    set (rated := fun p => geb (orZero (rating p)) 4).
    set (l := filter rated (filter (categoryFilter cat) collection)).
    assert (Hc : filter (categoryFilter cat) (sort_by ratingCompare l)
                 = sort_by ratingCompare l).
    { apply filter_all.
      apply (Forall_Permutation _ _ _ (sort_by_Permutation ratingCompare l)).
      rewrite Forall_forall. intros p Hp. subst l.
      apply filter_In in Hp. destruct Hp as [Hp _].
      apply filter_In in Hp. exact (proj2 Hp). }
    rewrite Hc. subst l.
    apply (recompose_sorted (fun p => - orZero (rating p))), ratingCompare_key. }
  destruct (String.eqb tab TAB_LATEST).
  { cbn [fst ret]. apply filter_all, filter_passes. }
  destruct (String.eqb tab TAB_SHUFFLE) eqn:E.
  { apply String.eqb_eq in E. contradiction. }
  destruct (String.eqb tab TAB_NEARBY || String.eqb tab TAB_FARAWAY) eqn:Edist.
  - rewrite (Hgeo (distance_tab_eqb tab Edist)).
    cbn [fst ret]. apply filter_all, filter_passes.
  - cbn [fst ret]. apply filter_all, filter_passes.
Qed.

Lemma compose_idempotent_witness :
  TAB_CURATED <> TAB_SHUFFLE
  /\ (TAB_CURATED = TAB_NEARBY \/ TAB_CURATED = TAB_FARAWAY ->
      Some (mkGeo 0 10) = None)
  /\ fst (filteredPhotos
            (fst (filteredPhotos BASE_PHOTOS LANDSCAPE TAB_CURATED 0
                    (Some (mkGeo 0 10)) rng0))
            LANDSCAPE TAB_CURATED 0 (Some (mkGeo 0 10)) rng0)
     = fst (filteredPhotos BASE_PHOTOS LANDSCAPE TAB_CURATED 0 (Some (mkGeo 0 10)) rng0).
Proof.
  assert (H : TAB_CURATED <> TAB_SHUFFLE) by (intros E; vm_compute in E; discriminate).
  assert (H' : TAB_CURATED = TAB_NEARBY \/ TAB_CURATED = TAB_FARAWAY ->
               Some (mkGeo 0 10) = None)
    by (intros [E | E]; vm_compute in E; discriminate).
  split; [exact H |]. split; [exact H' |].
  exact (compose_idempotent BASE_PHOTOS LANDSCAPE TAB_CURATED 0 (Some (mkGeo 0 10))
           rng0 rng0 H H').
Defined.

Lemma categoryFilter_ALL p : categoryFilter ALL p = true.
Proof. reflexivity. Qed.

Lemma filter_ALL collection : filter (categoryFilter ALL) collection = collection.
Proof. apply filter_all. rewrite Forall_forall. intros p _. reflexivity. Qed.

Lemma filter_swap {A : Type} (f h : A -> bool) l :
  filter f (filter h l) = filter h (filter f l).
Proof.
  induction l as [| a l IH]; [reflexivity |].
  cbn [filter]. destruct (f a) eqn:Ef, (h a) eqn:Eh; cbn [filter];
    rewrite ?Ef, ?Eh, IH; reflexivity.
Qed.

(** X9. Where no distance is compared (Curated, Latest, an unknown tab,
    and Nearby or Faraway while the location is unresolved) the category
    filter and the tab commute: the view of a category is the view of ALL
    with the photos outside the category struck out, in the same order. *)
Theorem category_view_restricts_ALL_view (collection : list Photo) (cat : Category)
    (tab : string) (epoch : nat) (geo : option GeoCoordinate) (g : RNG) :
  tab <> TAB_SHUFFLE ->
  (tab = TAB_NEARBY \/ tab = TAB_FARAWAY -> geo = None) ->
  fst (filteredPhotos collection cat tab epoch geo g)
  = filter (categoryFilter cat) (fst (filteredPhotos collection ALL tab epoch geo g)).
Proof.
  intros Htab Hgeo. unfold filteredPhotos. rewrite filter_ALL.
  destruct (String.eqb tab TAB_CURATED).
  { rewrite !Array_sort_pure. cbn [fst]. rewrite filter_swap.
    apply (sort_by_filter (fun p => - orZero (rating p))), ratingCompare_key. }
  destruct (String.eqb tab TAB_LATEST); [reflexivity |].
  destruct (String.eqb tab TAB_SHUFFLE) eqn:E.
  { apply String.eqb_eq in E. contradiction. }
  destruct (String.eqb tab TAB_NEARBY || String.eqb tab TAB_FARAWAY) eqn:Edist;
    [| reflexivity].
  rewrite (Hgeo (distance_tab_eqb tab Edist)). reflexivity.
Qed.

Lemma category_view_restricts_ALL_view_witness :
  TAB_CURATED <> TAB_SHUFFLE
  /\ (TAB_CURATED = TAB_NEARBY \/ TAB_CURATED = TAB_FARAWAY ->
      Some (mkGeo 0 10) = None)
  /\ fst (filteredPhotos BASE_PHOTOS LANDSCAPE TAB_CURATED 0 (Some (mkGeo 0 10)) rng0)
     = filter (categoryFilter LANDSCAPE)
         (fst (filteredPhotos BASE_PHOTOS ALL TAB_CURATED 0 (Some (mkGeo 0 10)) rng0)).
Proof.
  assert (H : TAB_CURATED <> TAB_SHUFFLE) by (intros E; vm_compute in E; discriminate).
  assert (H' : TAB_CURATED = TAB_NEARBY \/ TAB_CURATED = TAB_FARAWAY ->
               Some (mkGeo 0 10) = None)
    by (intros [E | E]; vm_compute in E; discriminate).
  split; [exact H |]. split; [exact H' |].
  exact (category_view_restricts_ALL_view BASE_PHOTOS LANDSCAPE TAB_CURATED 0
           (Some (mkGeo 0 10)) rng0 H H').
Defined.

(** ** PaginationController, beyond the claims *)

Lemma advance_visibleCount s :
  visibleCount (advance s)
  = Nat.min (visibleCount s + PAGE_SIZE) (List.length (memo s)).
Proof. reflexivity. Qed.

Lemma trigger_step e s :
  isTrigger e -> viewMode s = grid -> step e s = advance s.
Proof. intros [-> | ->] Hgrid; simpl; [| rewrite Hgrid]; reflexivity. Qed.

Lemma run_cons e events s : run (e :: events) s = run events (step e s).
Proof. reflexivity. Qed.

Lemma triggers_run events : forall s,
  Forall isTrigger events -> viewMode s = grid ->
  let s' := run events s in
  memo s' = memo s /\ viewMode s' = grid
  /\ (events <> [] ->
      visibleCount s'
      = Nat.min (visibleCount s + PAGE_SIZE * List.length events)
          (List.length (memo s))).
Proof.
  induction events as [| e events IH]; intros s Hall Hgrid.
  - cbv zeta. cbn [run fold_left]. repeat split; try assumption.
    intros H. destruct (H eq_refl).
  - apply Forall_cons_iff in Hall. destruct Hall as [He Hall].
    cbv zeta. rewrite run_cons, (trigger_step e s He Hgrid).
    destruct (IH (advance s) Hall Hgrid) as (Hm & Hv & Hc).
    repeat split; try assumption.
    intros _. destruct events as [| e' events'].
    + cbn [run fold_left List.length]. rewrite advance_visibleCount.
      unfold PAGE_SIZE. lia.
    + rewrite Hc by discriminate.
      rewrite advance_visibleCount. cbn [advance memo setVisibleCount List.length].
      unfold PAGE_SIZE. lia.
Qed.

Lemma setVisibleCount_same s : setVisibleCount (visibleCount s) s = s.
Proof. destruct s; reflexivity. Qed.

(** X10. In grid mode any non-empty sequence of triggers (timer or
    sentinel, in any order) leaves the view as it is and the window at
    min(window + 9 * number of triggers, length of the view); once that
    reaches the length of the view the whole view is exposed and every
    further trigger changes nothing. *)
Theorem triggers_reveal_progressively (events : list Event) (s : AppState) :
  Forall isTrigger events -> viewMode s = grid -> events <> [] ->
  let s' := run events s in
  memo s' = memo s
  /\ visibleCount s'
     = Nat.min (visibleCount s + PAGE_SIZE * List.length events)
         (List.length (memo s))
  /\ ((List.length (memo s) <= visibleCount s + PAGE_SIZE * List.length events)%nat ->
      visiblePhotos s' = memo s /\ forall e, isTrigger e -> step e s' = s').
Proof.
  intros Hall Hgrid Hne.
  destruct (triggers_run events s Hall Hgrid) as (Hm & Hv & Hc).
  cbv zeta in *. specialize (Hc Hne).
  split; [exact Hm |]. split; [exact Hc |].
  intros Hlen. split.
  - unfold visiblePhotos. rewrite Hm, Hc.
    rewrite Nat.min_r by assumption. apply firstn_all.
  - intros e He. rewrite (trigger_step e _ He Hv). unfold advance.
    rewrite Hm.
    assert (Hfull : visibleCount (run events s) = List.length (memo s))
      by (rewrite Hc; apply Nat.min_r, Hlen).
    rewrite Nat.min_r by lia.
    rewrite <- Hfull. apply setVisibleCount_same.
Qed.

Lemma triggers_reveal_progressively_witness :
  Forall isTrigger [TimerFired; SentinelVisible]
  /\ viewMode (mount BASE_PHOTOS rng0) = grid
  /\ visiblePhotos (run [TimerFired; SentinelVisible] (mount BASE_PHOTOS rng0))
     = BASE_PHOTOS.
Proof.
  assert (H1 : Forall isTrigger [TimerFired; SentinelVisible]).
  { constructor; [left; reflexivity |].
    constructor; [right; reflexivity | constructor]. }
  assert (H2 : viewMode (mount BASE_PHOTOS rng0) = grid) by reflexivity.
  assert (H3 : [TimerFired; SentinelVisible] <> []) by discriminate.
  split; [exact H1 |]. split; [exact H2 |].
  refine (proj1 (proj2 (proj2 (triggers_reveal_progressively _ _ H1 H2 H3)) _)).
  vm_compute. lia.
Defined.

Lemma render_quiet old new :
  activeCategory new = activeCategory old -> activeTab new = activeTab old ->
  shuffleTrigger new = shuffleTrigger old ->
  render false old new
  = if ViewMode_eqb (viewMode old) (viewMode new) then new
    else setVisibleCount PAGE_SIZE new.
Proof.
  intros Hc Ht Hs. unfold render, memoStale, resetDue.
  rewrite Hc, Ht, Hs.
  rewrite (proj2 (Category_eqb_eq _ _) eq_refl), String.eqb_refl, Nat.eqb_refl.
  cbn [negb orb].
  destruct (ViewMode_eqb (viewMode old) (viewMode new)); reflexivity.
Qed.

(** X11. The triggers and the two view toggles never recompose: the
    cached view, the state of the random source, the collection and the
    inputs of the composition are what they were, so a shuffled view stays
    as it is while it is paged through or looked at on the map.  The map
    toggle always resets the window to the page size. *)
Theorem quiet_events_keep_view (e : Event) (s : AppState) :
  isTrigger e \/ e = MapToggle \/ e = ManageToggle ->
  memo (step e s) = memo s /\ random (step e s) = random s
  /\ photos (step e s) = photos s /\ activeCategory (step e s) = activeCategory s
  /\ activeTab (step e s) = activeTab s /\ shuffleTrigger (step e s) = shuffleTrigger s
  /\ userLocation (step e s) = userLocation s
  /\ (e = MapToggle ->
      visibleCount (step e s) = PAGE_SIZE /\ viewMode (step e s) <> viewMode s).
Proof.
  intros [[-> | ->] | [-> | ->]]; cbn [step].
  - repeat split; congruence.
  - destruct (viewMode s); repeat split; congruence.
  - rewrite render_quiet by reflexivity.
    unfold toggleMap.
    destruct (viewMode s) eqn:E; cbn [viewMode setViewMode ViewMode_eqb].
    all: repeat split; cbn in *; discriminate.
  - rewrite render_quiet;
      try (unfold toggleManageMode;
           destruct (negb (isManageMode s) && ViewMode_eqb (viewMode s) map_view);
           reflexivity).
    destruct s as [ph ac tb vm mm sel vc st ul me pl rnd].
    destruct vm, mm; cbn; repeat split;
      match goal with H : ManageToggle = MapToggle |- _ => discriminate H end.
Qed.

Lemma quiet_events_keep_view_witness :
  (isTrigger MapToggle \/ MapToggle = MapToggle \/ MapToggle = ManageToggle)
  /\ memo (step MapToggle (mount BASE_PHOTOS rng0)) = BASE_PHOTOS.
Proof.
  assert (H : isTrigger MapToggle \/ MapToggle = MapToggle \/ MapToggle = ManageToggle)
    by (right; left; reflexivity).
  split; [exact H |].
  exact (proj1 (quiet_events_keep_view MapToggle (mount BASE_PHOTOS rng0) H)).
Defined.

Lemma handleTabClick_other tab s :
  tab <> TAB_SHUFFLE ->
  let new := handleTabClick tab s in
  shuffleTrigger new = shuffleTrigger s
  /\ activeTab new = tab /\ viewMode new = grid
  /\ activeCategory new = activeCategory s
  /\ memo new = memo s /\ visibleCount new = visibleCount s
  /\ random new = random s.
Proof.
  intros Htab. apply String.eqb_neq in Htab.
  destruct s as [ph ac tb vm mm sel vc st ul me pl rnd].
  unfold handleTabClick. cbv zeta. rewrite Htab.
  destruct vm, ul, (String.eqb tab TAB_NEARBY || String.eqb tab TAB_FARAWAY);
    cbn; repeat split.
Qed.

Lemma handleTabClick_shuffle s :
  let new := handleTabClick TAB_SHUFFLE s in
  shuffleTrigger new = (shuffleTrigger s + 1)%nat
  /\ activeTab new = TAB_SHUFFLE /\ viewMode new = grid
  /\ photos new = photos s /\ activeCategory new = activeCategory s
  /\ userLocation new = userLocation s /\ random new = random s.
Proof.
  destruct s as [ph ac tb vm mm sel vc st ul me pl rnd].
  destruct vm, ul; cbn; repeat split.
Qed.

(** X12. A click on the Shuffle tab always shuffles anew, also when the
    tab is already active: the epoch goes up by one, the view is composed
    again from fresh draws, the window goes back to the page size and the
    grid is shown.  A click on any other tab that is already active, in
    grid mode, leaves the view, the window and the random source alone. *)
Theorem tab_click_reshuffles_only_shuffle (tab : string) (s : AppState) :
  let s' := step (TabClick tab) s in
  (tab = TAB_SHUFFLE ->
     shuffleTrigger s' = S (shuffleTrigger s)
     /\ activeTab s' = TAB_SHUFFLE /\ viewMode s' = grid
     /\ visibleCount s' = PAGE_SIZE
     /\ (memo s', random s')
        = filteredPhotos (photos s) (activeCategory s) TAB_SHUFFLE
            (S (shuffleTrigger s)) (userLocation s) (random s))
  /\ (tab <> TAB_SHUFFLE -> activeTab s = tab -> viewMode s = grid ->
      memo s' = memo s /\ visibleCount s' = visibleCount s
      /\ random s' = random s /\ shuffleTrigger s' = shuffleTrigger s).
Proof.
  cbv zeta. split.
  - intros ->. cbn [step].
    destruct (handleTabClick_shuffle s) as (Hst & Htb & Hvm & Hph & Hac & Hul & Hrnd).
    remember (handleTabClick TAB_SHUFFLE s) as new eqn:Hnew. clear Hnew.
    assert (Hneq : Nat.eqb (shuffleTrigger s) (shuffleTrigger new) = false)
      by (apply Nat.eqb_neq; lia).
    unfold render, memoStale, resetDue. rewrite Hneq. cbn [negb].
    rewrite !orb_true_r. cbn [orb]. rewrite Hph, Hac, Htb, Hst, Hul, Hrnd.
    replace (shuffleTrigger s + 1)%nat with (S (shuffleTrigger s)) by lia.
    destruct (filteredPhotos (photos s) (activeCategory s) TAB_SHUFFLE
                (S (shuffleTrigger s)) (userLocation s) (random s)) as [view g'].
    destruct new; cbn in *. subst. repeat split. lia.
  - intros Htab Hactive Hgrid. cbn [step].
    destruct (handleTabClick_other tab s Htab)
      as (Hst & Htb & Hvm & Hac & Hme & Hvc & Hrnd).
    rewrite render_quiet by congruence.
    rewrite Hvm, Hgrid. cbn [ViewMode_eqb]. repeat split; assumption.
Qed.

Lemma tab_click_reshuffles_only_shuffle_witness :
  TAB_SHUFFLE = TAB_SHUFFLE
  /\ shuffleTrigger
       (step (TabClick TAB_SHUFFLE) (step (TabClick TAB_SHUFFLE) (mount BASE_PHOTOS rng0)))
     = S (shuffleTrigger (step (TabClick TAB_SHUFFLE) (mount BASE_PHOTOS rng0))).
Proof.
  split; [reflexivity |].
  exact (proj1 (proj1 (tab_click_reshuffles_only_shuffle TAB_SHUFFLE
                         (step (TabClick TAB_SHUFFLE) (mount BASE_PHOTOS rng0)))
                  eq_refl)).
Defined.

Lemma handleUpdatePhoto_userLocation p s :
  userLocation (handleUpdatePhoto p s) = userLocation s.
Proof.
  unfold handleUpdatePhoto.
  destruct (existsb _ (photos s)), (selectedPhoto s) as [sel |];
    try destruct (String.eqb (id sel) (id p)); reflexivity.
Qed.

Lemma handleDeletePhoto_userLocation photoId s :
  userLocation (handleDeletePhoto photoId s) = userLocation s.
Proof.
  unfold handleDeletePhoto.
  destruct (selectedPhoto s) as [sel |];
    try destruct (String.eqb (id sel) photoId); reflexivity.
Qed.

Lemma step_userLocation e s :
  userLocation (step e s)
  = match e with
    | LocationResolved loc =>
        match pendingLocation s with
        | O => userLocation s
        | S _ => Some loc
        end
    | _ => userLocation s
    end.
Proof.
  destruct e; cbn [step].
  - rewrite (proj1 (proj2 (proj2 (proj2 (proj2 (render_inputs false s _)))))).
    apply handleTabClick_keeps.
  - rewrite (proj1 (proj2 (proj2 (proj2 (proj2 (render_inputs false s _)))))).
    reflexivity.
  - rewrite (proj1 (proj2 (proj2 (proj2 (proj2 (render_inputs false s _)))))).
    reflexivity.
  - rewrite (proj1 (proj2 (proj2 (proj2 (proj2 (render_inputs false s _)))))).
    apply toggleManageMode_keeps.
  - destruct (pendingLocation s) eqn:E; [reflexivity |].
    rewrite (proj1 (proj2 (proj2 (proj2 (proj2 (render_inputs true s _)))))).
    unfold locationResolved. rewrite E. reflexivity.
  - rewrite (proj1 (proj2 (proj2 (proj2 (proj2 (render_inputs true s _)))))).
    apply handleUpdatePhoto_userLocation.
  - rewrite (proj1 (proj2 (proj2 (proj2 (proj2 (render_inputs true s _)))))).
    apply handleDeletePhoto_userLocation.
  - reflexivity.
  - destruct (viewMode s); reflexivity.
Qed.

(** X13. A resolved location is never lost and never asked for again: no
    event clears [userLocation], and while it is set a click on Nearby or
    Faraway starts no geolocation query. *)
Theorem location_cached_for_session (e : Event) (s : AppState) (user : GeoCoordinate) :
  userLocation s = Some user ->
  userLocation (step e s) <> None
  /\ (forall tab, pendingLocation (step (TabClick tab) s) = pendingLocation s)
  /\ (pendingLocation s = 0%nat -> userLocation (step e s) = Some user).
Proof.
  intros Hloc. pose proof (step_userLocation e s) as He. repeat split.
  - rewrite He. destruct e; try (rewrite Hloc; discriminate).
    destruct (pendingLocation s); [rewrite Hloc |]; discriminate.
  - intros tab. cbn [step].
    destruct s as [ph ac tb vm mm sel vc st ul me pl rnd]. cbn in Hloc. subst ul.
    unfold render, handleTabClick.
    destruct vm, (String.eqb tab TAB_SHUFFLE); cbn;
      rewrite ?andb_false_r; cbn;
      repeat match goal with
        | |- context [filteredPhotos ?a ?b ?c ?d ?e ?f] =>
            destruct (filteredPhotos a b c d e f)
        | |- context [if ?c then _ else _] => destruct c
        end; reflexivity.
  - intros Hpending. rewrite He. destruct e; try exact Hloc.
    rewrite Hpending. exact Hloc.
Qed.

Lemma location_cached_for_session_witness :
  let s := step (LocationResolved (mkGeo 0 10))
             (step (TabClick TAB_LATEST)
                (step (TabClick TAB_NEARBY) (mount [] rng0))) in
  userLocation s = Some (mkGeo 0 10)
  /\ userLocation (step (TabClick TAB_FARAWAY) s) <> None.
Proof.
  cbv zeta.
  assert (H : userLocation
                (step (LocationResolved (mkGeo 0 10))
                   (step (TabClick TAB_LATEST)
                      (step (TabClick TAB_NEARBY) (mount [] rng0))))
              = Some (mkGeo 0 10)) by reflexivity.
  split; [exact H |].
  exact (proj1 (location_cached_for_session (TabClick TAB_FARAWAY) _ _ H)).
Defined.

(** ** FeedOrchestrator, beyond the claims *)

Lemma handleDeletePhoto_photos photoId s :
  photos (handleDeletePhoto photoId s)
  = filter (fun p => negb (String.eqb (id p) photoId)) (photos s).
Proof.
  unfold handleDeletePhoto.
  destruct (selectedPhoto s) as [sel |];
    try destruct (String.eqb (id sel) photoId); reflexivity.
Qed.

Lemma step_photos e s :
  photos (step e s)
  = match e with
    | UpdatePhoto p => photos (handleUpdatePhoto p s)
    | DeletePhoto photoId => photos (handleDeletePhoto photoId s)
    | _ => photos s
    end.
Proof.
  destruct e; cbn [step];
    try (rewrite (proj1 (render_inputs _ s _))); try reflexivity.
  - apply handleTabClick_keeps.
  - apply toggleManageMode_keeps.
  - destruct (pendingLocation s) eqn:E; [reflexivity |].
    rewrite (proj1 (render_inputs _ s _)).
    unfold locationResolved. rewrite E. reflexivity.
  - destruct (viewMode s); reflexivity.
Qed.

Lemma ids_filter_In (f : Photo -> bool) l x :
  In x (ids (filter f l)) -> In x (ids l).
Proof.
  unfold ids. rewrite !in_map_iff. intros (p & Hp & Hin).
  apply filter_In in Hin. exists p. tauto.
Qed.

Lemma NoDup_ids_filter (f : Photo -> bool) l :
  NoDup (ids l) -> NoDup (ids (filter f l)).
Proof.
  induction l as [| p l IH]; intros H; [exact H |].
  cbn [ids List.map] in H. apply NoDup_cons_iff in H. destruct H as [Hp H].
  cbn [filter]. destruct (f p); [| apply IH, H].
  cbn [ids List.map]. constructor; [| apply IH, H].
  intros Hin. apply Hp. exact (ids_filter_In f l _ Hin).
Qed.

Lemma existsb_id_In (photoId : string) l :
  existsb (fun q => String.eqb (id q) photoId) l = true <-> In photoId (ids l).
Proof.
  unfold ids. rewrite existsb_exists, in_map_iff.
  split; intros (q & H1 & H2); exists q.
  - apply String.eqb_eq in H2. tauto.
  - split; [exact H2 | apply String.eqb_eq, H1].
Qed.

Lemma ids_replace p l :
  ids (List.map (fun q => if String.eqb (id q) (id p) then p else q) l) = ids l.
Proof.
  unfold ids. rewrite map_map. apply map_ext. intros q.
  destruct (String.eqb (id q) (id p)) eqn:E; [| reflexivity].
  apply String.eqb_eq in E. symmetry. exact E.
Qed.

Lemma handleUpdatePhoto_NoDup p s :
  NoDup (ids (photos s)) -> NoDup (ids (photos (handleUpdatePhoto p s))).
Proof.
  intros H. rewrite handleUpdatePhoto_photos.
  destruct (existsb _ (photos s)) eqn:E.
  - rewrite ids_replace. exact H.
  - cbn [ids List.map]. constructor; [| exact H].
    intros Hin. apply existsb_id_In in Hin. congruence.
Qed.

Lemma step_NoDup e s : NoDup (ids (photos s)) -> NoDup (ids (photos (step e s))).
Proof.
  intros H. rewrite step_photos. destruct e; try exact H.
  - apply handleUpdatePhoto_NoDup, H.
  - rewrite handleDeletePhoto_photos. apply NoDup_ids_filter, H.
Qed.

Lemma coherent_memo_NoDup s :
  coherent s -> NoDup (ids (photos s)) -> NoDup (ids (memo s)).
Proof.
  intros [g Hm] H. rewrite Hm.
  pose proof (filteredPhotos_Permutation (photos s) (activeCategory s) (activeTab s)
                (shuffleTrigger s) (userLocation s) g) as Hp.
  apply (Permutation_NoDup (l := ids (kept (activeTab s)
                                       (filter (categoryFilter (activeCategory s))
                                          (photos s))))).
  - unfold ids. apply Permutation_map, Hp.
  - unfold kept. destruct (String.eqb (activeTab s) TAB_CURATED);
      repeat apply NoDup_ids_filter; exact H.
Qed.

Lemma coherent_memo_In s p : coherent s -> In p (memo s) -> In p (photos s).
Proof.
  intros [g Hm] Hin. rewrite Hm in Hin.
  pose proof (filteredPhotos_Permutation (photos s) (activeCategory s) (activeTab s)
                (shuffleTrigger s) (userLocation s) g) as Hp.
  apply (Permutation_in _ (Permutation_sym Hp)) in Hin.
  pose proof (kept_passes (activeTab s) (activeCategory s) (photos s)) as Hk.
  rewrite Forall_forall in Hk. exact (proj1 (Hk p Hin)).
Qed.

Lemma NoDup_firstn {A : Type} n (l : list A) : NoDup l -> NoDup (firstn n l).
Proof.
  intros H. rewrite <- (firstn_skipn n l) in H.
  exact (NoDup_app_remove_r _ _ H).
Qed.

(** X14. Ids stay unique: if the loaded collection has no id twice, then
    in every reachable state neither the collection, nor the composed
    view, nor the exposed slice has an id twice. *)
Theorem ids_stay_unique (loaded : list Photo) (g : RNG) (s : AppState) :
  NoDup (ids loaded) -> reachable loaded g s ->
  NoDup (ids (photos s)) /\ NoDup (ids (memo s)) /\ NoDup (ids (visiblePhotos s)).
Proof.
  intros Hloaded Hreach.
  assert (Hp : NoDup (ids (photos s))).
  { induction Hreach as [| s e _ IH]; [exact Hloaded | apply step_NoDup, IH]. }
  pose proof (coherent_memo_NoDup s (reachable_coherent loaded g s Hreach) Hp) as Hm.
  repeat split; try assumption.
  unfold visiblePhotos, ids. rewrite <- firstn_map. apply NoDup_firstn, Hm.
Qed.

Lemma ids_stay_unique_witness :
  NoDup (ids BASE_PHOTOS)
  /\ NoDup (ids (memo (step (UpdatePhoto alps) (mount BASE_PHOTOS rng0)))).
Proof.
  assert (H : NoDup (ids BASE_PHOTOS)).
  { constructor; [cbn; intros [E | [E | []]]; discriminate E |].
    constructor; [cbn; intros [E | []]; discriminate E |].
    constructor; [cbn; intros [] | constructor]. }
  split; [exact H |].
  exact (proj1 (proj2 (ids_stay_unique BASE_PHOTOS rng0 _ H
                         (reach_step _ _ _ (UpdatePhoto alps) (reach_mount _ _))))).
Defined.

Lemma find_replace p l :
  existsb (fun q => String.eqb (id q) (id p)) l = true ->
  find (withId (id p))
    (List.map (fun q => if String.eqb (id q) (id p) then p else q) l)
  = Some p.
Proof.
  induction l as [| q l IH]; [discriminate |].
  cbn [existsb List.map find]. unfold withId at 1.
  destruct (String.eqb (id q) (id p)) eqn:E.
  - intros _. rewrite String.eqb_refl. reflexivity.
  - rewrite E. cbn [orb]. exact IH.
Qed.

Lemma handleUpdatePhoto_eq p s :
  let found := existsb (fun q => String.eqb (id q) (id p)) (photos s) in
  handleUpdatePhoto p s
  = mkApp
      (if found
       then List.map (fun q => if String.eqb (id q) (id p) then p else q) (photos s)
       else p :: photos s)
      (if found then activeCategory s else ALL)
      (if found then activeTab s else TAB_LATEST)
      (if found then viewMode s else grid)
      (isManageMode s)
      (match selectedPhoto s with
       | Some sel => if String.eqb (id sel) (id p) then Some p else Some sel
       | None => None
       end)
      (visibleCount s) (shuffleTrigger s) (userLocation s) (memo s)
      (pendingLocation s) (random s).
Proof.
  destruct s as [ph ac tb vm mm sel vc st ul me pl rnd].
  unfold handleUpdatePhoto. cbn [photos selectedPhoto].
  destruct (existsb _ ph), sel as [sel |];
    try destruct (String.eqb (id sel) (id p)); reflexivity.
Qed.

Lemma existsb_after_upsert p l :
  existsb (fun q => String.eqb (id q) (id p))
    (if existsb (fun q => String.eqb (id q) (id p)) l
     then List.map (fun q => if String.eqb (id q) (id p) then p else q) l
     else p :: l) = true.
Proof.
  destruct (existsb _ l) eqn:E.
  - rewrite existsb_id_In in *. rewrite ids_replace. exact E.
  - cbn [existsb]. rewrite String.eqb_refl. reflexivity.
Qed.

Lemma replace_after_upsert p l :
  List.map (fun q => if String.eqb (id q) (id p) then p else q)
    (if existsb (fun q => String.eqb (id q) (id p)) l
     then List.map (fun q => if String.eqb (id q) (id p) then p else q) l
     else p :: l)
  = if existsb (fun q => String.eqb (id q) (id p)) l
    then List.map (fun q => if String.eqb (id q) (id p) then p else q) l
    else p :: l.
Proof.
  destruct (existsb _ l) eqn:E.
  - rewrite map_map. apply map_ext. intros q.
    destruct (String.eqb (id q) (id p)) eqn:Eq;
      [rewrite String.eqb_refl | rewrite Eq]; reflexivity.
  - cbn [List.map]. rewrite String.eqb_refl. f_equal.
    induction l as [| q l IH]; [reflexivity |].
    cbn [existsb] in E. apply orb_false_elim in E. destruct E as [Eq El].
    cbn [List.map]. rewrite Eq, (IH El). reflexivity.
Qed.

(** X15. After [handleUpdatePhoto] the first photo of the collection that
    has the id of the given photo is the given photo itself, whether it
    replaced an old version or was put in front; and doing the same
    update twice changes nothing more than doing it once. *)
Theorem upsert_then_lookup (updatedPhoto : Photo) (s : AppState) :
  find (withId (id updatedPhoto)) (photos (handleUpdatePhoto updatedPhoto s))
  = Some updatedPhoto
  /\ handleUpdatePhoto updatedPhoto (handleUpdatePhoto updatedPhoto s)
     = handleUpdatePhoto updatedPhoto s.
Proof.
  split.
  - rewrite handleUpdatePhoto_photos.
    destruct (existsb _ (photos s)) eqn:E.
    + apply find_replace, E.
    + cbn [find]. unfold withId. rewrite String.eqb_refl. reflexivity.
  - rewrite (handleUpdatePhoto_eq updatedPhoto (handleUpdatePhoto updatedPhoto s)).
    cbv zeta. rewrite (handleUpdatePhoto_eq updatedPhoto s). cbv zeta.
    cbn [photos activeCategory activeTab viewMode isManageMode selectedPhoto
         visibleCount shuffleTrigger userLocation memo pendingLocation random].
    rewrite existsb_after_upsert, replace_after_upsert.
    f_equal.
    destruct (selectedPhoto s) as [sel |]; [| reflexivity].
    destruct (String.eqb (id sel) (id updatedPhoto)) eqn:Es;
      [rewrite String.eqb_refl | rewrite Es]; reflexivity.
Qed.

(** X16. A photo with a new id ends up at the head of the view, whatever
    category, tab or view mode was active: the filters go back to ALL and
    Latest, the grid is shown, the view is the whole collection with the
    new photo first, and the new photo is the first of the exposed slice
    unless the window was 0. *)
Theorem new_upload_heads_view (p : Photo) (s : AppState) :
  existsb (fun q => String.eqb (id q) (id p)) (photos s) = false ->
  let s' := step (UpdatePhoto p) s in
  photos s' = p :: photos s
  /\ activeCategory s' = ALL /\ activeTab s' = TAB_LATEST /\ viewMode s' = grid
  /\ memo s' = p :: photos s
  /\ ((0 < visibleCount s)%nat -> exists rest, visiblePhotos s' = p :: rest).
Proof.
  intros Hnew. cbv zeta. cbn [step].
  pose proof (handleUpdatePhoto_eq p s) as Heq. cbv zeta in Heq.
  rewrite Hnew in Heq. rewrite Heq. clear Heq.
  unfold render. cbn [memoStale orb photos activeCategory activeTab shuffleTrigger
                        userLocation random].
  rewrite filteredPhotos_latest, filter_ALL.
  destruct (resetDue s _); cbn; repeat split.
  - intros _. eexists. reflexivity.
  - intros Hpos. destruct (visibleCount s) as [| n]; [lia |].
    eexists. reflexivity.
Qed.

Lemma new_upload_heads_view_witness :
  existsb (fun q => String.eqb (id q) (id alps)) (photos (mount BASE_PHOTOS rng0)) = false
  /\ memo (step (UpdatePhoto alps) (mount BASE_PHOTOS rng0)) = alps :: BASE_PHOTOS.
Proof.
  assert (H : existsb (fun q => String.eqb (id q) (id alps))
                (photos (mount BASE_PHOTOS rng0)) = false) by reflexivity.
  split; [exact H |].
  exact (proj1 (proj2 (proj2 (proj2 (proj2
           (new_upload_heads_view alps (mount BASE_PHOTOS rng0) H)))))).
Defined.

Lemma filter_length_NoDup photoId l :
  NoDup (ids l) -> In photoId (ids l) ->
  S (List.length (filter (fun p => negb (String.eqb (id p) photoId)) l))
  = List.length l.
Proof.
  induction l as [| q l IH]; intros Hnd Hin; [destruct Hin |].
  cbn [ids List.map] in Hnd. apply NoDup_cons_iff in Hnd. destruct Hnd as [Hq Hnd].
  cbn [filter List.length]. destruct (String.eqb (id q) photoId) eqn:E; cbn [negb].
  - apply String.eqb_eq in E. subst photoId. f_equal.
    f_equal. apply filter_all. rewrite Forall_forall. intros x Hx.
    apply negb_true_iff, String.eqb_neq. intros Heq. apply Hq.
    rewrite <- Heq. unfold ids. apply in_map, Hx.
  - cbn [List.length]. f_equal. apply IH; [exact Hnd |].
    destruct Hin as [Hin | Hin]; [| exact Hin].
    apply String.eqb_neq in E. congruence.
Qed.

(** X17. [handleDeletePhoto] leaves no photo with the given id and keeps
    every other photo in its place; an id that is not in the collection
    changes nothing; with unique ids exactly one photo goes; and the
    viewer never keeps showing the deleted photo. *)
Theorem delete_removes_by_id (photoId : string) (s : AppState) :
  let s' := handleDeletePhoto photoId s in
  ~ In photoId (ids (photos s'))
  /\ (forall p, In p (photos s') <-> In p (photos s) /\ id p <> photoId)
  /\ ids (photos s') = filter (fun i => negb (String.eqb i photoId)) (ids (photos s))
  /\ (~ In photoId (ids (photos s)) -> photos s' = photos s)
  /\ (NoDup (ids (photos s)) -> In photoId (ids (photos s)) ->
      S (List.length (photos s')) = List.length (photos s))
  /\ (forall sel, selectedPhoto s' = Some sel ->
        id sel <> photoId /\ selectedPhoto s = Some sel).
Proof.
  cbv zeta. rewrite handleDeletePhoto_photos.
  split; [| split; [| split; [| split; [| split]]]].
  - unfold ids. rewrite in_map_iff. intros (p & Hp & Hin).
    apply filter_In in Hin. destruct Hin as [_ Hin].
    apply negb_true_iff, String.eqb_neq in Hin. contradiction.
  - intros p. rewrite filter_In, negb_true_iff, String.eqb_neq. tauto.
  - unfold ids. induction (photos s) as [| q l IH]; [reflexivity |].
    cbn [filter List.map]. destruct (String.eqb (id q) photoId); cbn [negb List.map];
      rewrite IH; reflexivity.
  - intros Hnot. apply filter_all. rewrite Forall_forall. intros q Hq.
    apply negb_true_iff, String.eqb_neq. intros Heq. apply Hnot.
    rewrite <- Heq. unfold ids. apply in_map, Hq.
  - apply filter_length_NoDup.
  - intros sel. unfold handleDeletePhoto.
    destruct s as [ph ac tb vm mm [cur |] vc st ul me pl rnd]; cbn;
      [| discriminate].
    destruct (String.eqb (id cur) photoId) eqn:E; cbn; [discriminate |].
    intros H. injection H as <-. split; [apply String.eqb_neq, E | reflexivity].
Qed.

(** X18. Deleting a photo that was just added under a new id gives back
    the collection as it was. *)
Theorem delete_undoes_new_upload (p : Photo) (s : AppState) :
  existsb (fun q => String.eqb (id q) (id p)) (photos s) = false ->
  photos (handleDeletePhoto (id p) (handleUpdatePhoto p s)) = photos s.
Proof.
  intros Hnew. rewrite handleDeletePhoto_photos, handleUpdatePhoto_photos, Hnew.
  cbn [filter]. rewrite String.eqb_refl. cbn [negb].
  apply filter_all. rewrite Forall_forall. intros q Hq.
  apply negb_true_iff.
  destruct (String.eqb (id q) (id p)) eqn:E; [| reflexivity].
  assert (existsb (fun q => String.eqb (id q) (id p)) (photos s) = true)
    by (apply existsb_exists; exists q; tauto).
  congruence.
Qed.

Lemma delete_undoes_new_upload_witness :
  existsb (fun q => String.eqb (id q) (id alps)) (photos (mount BASE_PHOTOS rng0)) = false
  /\ photos (handleDeletePhoto (id alps) (handleUpdatePhoto alps (mount BASE_PHOTOS rng0)))
     = BASE_PHOTOS.
Proof.
  assert (H : existsb (fun q => String.eqb (id q) (id alps))
                (photos (mount BASE_PHOTOS rng0)) = false) by reflexivity.
  split; [exact H |].
  exact (delete_undoes_new_upload alps (mount BASE_PHOTOS rng0) H).
Defined.

(** ** The single-photo viewer *)



Lemma findIndex_found {A : Type} (f : A -> bool) front x back :
  Forall (fun y => f y = false) front -> f x = true ->
  findIndex f (front ++ x :: back) = Z.of_nat (List.length front).
Proof.
  induction 1 as [| y front Hy _ IH]; intros Hx; cbn [app findIndex List.length].
  - rewrite Hx. reflexivity.
  - rewrite Hy, (IH Hx).
    destruct (Z.of_nat (List.length front) <? 0)%Z eqn:E; [apply Z.ltb_lt in E |]; lia.
Qed.

Lemma findIndex_hit {A : Type} (f : A -> bool) l :
  (0 <= findIndex f l)%Z ->
  exists x, nth_error l (Z.to_nat (findIndex f l)) = Some x /\ f x = true.
Proof.
  induction l as [| y l IH]; cbn [findIndex]; [lia |].
  destruct (f y) eqn:Ey; [intros _; exists y; split; [reflexivity | exact Ey] |].
  destruct (findIndex f l <? 0)%Z eqn:E; [lia |].
  apply Z.ltb_ge in E. intros _. destruct (IH E) as (x & Hx & Hfx).
  exists x. split; [| exact Hfx].
  replace (Z.to_nat (findIndex f l + 1)) with (S (Z.to_nat (findIndex f l))) by lia.
  exact Hx.
Qed.

Lemma at_index_nat {A : Type} (l : list A) (n : nat) :
  at_index l (Z.of_nat n) = nth_error l n.
Proof.
  unfold at_index. destruct (Z.of_nat n <? 0)%Z eqn:E; [apply Z.ltb_lt in E; lia |].
  rewrite Nat2Z.id. reflexivity.
Qed.

Lemma ids_differ_eqb sel (l : list Photo) :
  Forall (fun q => id q <> id sel) l ->
  Forall (fun q => String.eqb (id q) (id sel) = false) l.
Proof. apply Forall_impl. intros q. apply String.eqb_neq. Qed.

Lemma next_at s d sel front cur back :
  selectedPhoto s = Some sel -> memo s = front ++ cur :: back ->
  id cur = id sel -> Forall (fun q => id q <> id sel) front ->
  handleNextPhoto s d
  = match back with
    | nxt :: _ => (setSelectedPhoto (Some nxt) s, slide_right)
    | [] => (s, slide_right)
    end.
Proof.
  intros Hsel Hmemo Hcur Hfront. unfold handleNextPhoto. rewrite Hsel, Hmemo.
  rewrite (findIndex_found _ front cur back (ids_differ_eqb sel front Hfront))
    by (apply String.eqb_eq, Hcur).
  rewrite length_app. cbn [List.length].
  destruct back as [| nxt back'].
  - cbn [List.length].
    destruct (Z.of_nat (List.length front) <? Z.of_nat (List.length front + 1) - 1)%Z eqn:E;
      [apply Z.ltb_lt in E; lia | reflexivity].
  - cbn [List.length].
    destruct (Z.of_nat (List.length front)
              <? Z.of_nat (List.length front + S (S (List.length back'))) - 1)%Z eqn:E;
      [| apply Z.ltb_ge in E; lia].
    replace (Z.of_nat (List.length front) + 1)%Z
      with (Z.of_nat (S (List.length front))) by lia.
    rewrite at_index_nat.
    replace (front ++ cur :: nxt :: back') with ((front ++ [cur]) ++ nxt :: back')
      by (rewrite <- app_assoc; reflexivity).
    rewrite nth_error_app2 by (rewrite length_app; cbn; lia).
    rewrite length_app. cbn [List.length].
    replace (S (List.length front) - (List.length front + 1))%nat with 0%nat by lia.
    reflexivity.
Qed.

Lemma prev_at s d sel front cur back :
  selectedPhoto s = Some sel -> memo s = front ++ cur :: back ->
  id cur = id sel -> Forall (fun q => id q <> id sel) front ->
  handlePrevPhoto s d
  = match rev front with
    | prv :: _ => (setSelectedPhoto (Some prv) s, slide_left)
    | [] => (s, slide_left)
    end.
Proof.
  intros Hsel Hmemo Hcur Hfront. unfold handlePrevPhoto. rewrite Hsel, Hmemo.
  rewrite (findIndex_found _ front cur back (ids_differ_eqb sel front Hfront))
    by (apply String.eqb_eq, Hcur).
  destruct (rev front) as [| prv rfront] eqn:Er.
  - assert (front = []) by (rewrite <- (rev_involutive front), Er; reflexivity).
    subst front. reflexivity.
  - assert (Hf : front = rev rfront ++ [prv])
      by (rewrite <- (rev_involutive front), Er; reflexivity).
    rewrite Hf. rewrite length_app. cbn [List.length].
    destruct (0 <? Z.of_nat (List.length (rev rfront) + 1))%Z eqn:E;
      [| apply Z.ltb_ge in E; lia].
    replace (Z.of_nat (List.length (rev rfront) + 1) - 1)%Z
      with (Z.of_nat (List.length (rev rfront))) by lia.
    rewrite at_index_nat, <- !app_assoc.
    rewrite nth_error_app2 by lia. rewrite Nat.sub_diag. reflexivity.
Qed.

(** X19. With the shown photo at some place of the view, the right arrow
    selects the photo that follows it and the left arrow the one before
    it; at the last photo the right arrow, and at the first the left one,
    leaves the selection as it is: there is no wrap-around. *)
Theorem arrows_move_to_neighbours (s : AppState) (d : SlideDirection)
    (sel : Photo) (front : list Photo) (cur : Photo) (back : list Photo) :
  selectedPhoto s = Some sel -> memo s = front ++ cur :: back ->
  id cur = id sel -> Forall (fun q => id q <> id sel) front ->
  selectedPhoto (fst (handleNextPhoto s d)) = Some (hd sel back)
  /\ selectedPhoto (fst (handlePrevPhoto s d)) = Some (last front sel)
  /\ snd (handleNextPhoto s d) = slide_right
  /\ snd (handlePrevPhoto s d) = slide_left.
Proof.
  intros Hsel Hmemo Hcur Hfront.
  rewrite (next_at s d sel front cur back Hsel Hmemo Hcur Hfront).
  rewrite (prev_at s d sel front cur back Hsel Hmemo Hcur Hfront).
  repeat split.
  - destruct back; [exact Hsel | reflexivity].
  - destruct (rev front) as [| prv rfront] eqn:Er.
    + assert (front = []) by (rewrite <- (rev_involutive front), Er; reflexivity).
      subst front. exact Hsel.
    + assert (Hf : front = rev rfront ++ [prv])
        by (rewrite <- (rev_involutive front), Er; reflexivity).
      rewrite Hf, last_last. reflexivity.
  - destruct back; reflexivity.
  - destruct (rev front); reflexivity.
Qed.

Lemma arrows_move_to_neighbours_witness :
  let s := setSelectedPhoto (Some alps) (mount [unlocated; alps; north] rng0) in
  selectedPhoto s = Some alps /\ memo s = [unlocated] ++ alps :: [north]
  /\ id alps = id alps /\ Forall (fun q => id q <> id alps) [unlocated]
  /\ selectedPhoto (fst (handleNextPhoto s slide_left)) = Some north
  /\ selectedPhoto (fst (handlePrevPhoto s slide_right)) = Some unlocated.
Proof.
  cbv zeta.
  set (s := setSelectedPhoto (Some alps) (mount [unlocated; alps; north] rng0)).
  assert (H1 : selectedPhoto s = Some alps) by reflexivity.
  assert (H2 : memo s = [unlocated] ++ alps :: [north]) by reflexivity.
  assert (H3 : Forall (fun q => id q <> id alps) [unlocated]).
  { constructor; [intros E; discriminate E | constructor]. }
  pose proof (arrows_move_to_neighbours s slide_left alps [unlocated] alps [north]
                H1 H2 eq_refl H3) as Hn.
  pose proof (arrows_move_to_neighbours s slide_right alps [unlocated] alps [north]
                H1 H2 eq_refl H3) as Hp.
  split; [exact H1 |]. split; [exact H2 |]. split; [reflexivity |].
  split; [exact H3 |]. split; [exact (proj1 Hn) | exact (proj1 (proj2 Hp))].
Defined.



Lemma at_index_In {A : Type} (l : list A) i x : at_index l i = Some x -> In x l.
Proof.
  unfold at_index. destruct (i <? 0)%Z; [discriminate |]. apply nth_error_In.
Qed.




(** X22. With unique ids in the view, the right arrow followed by the
    left arrow comes back to the photo that was shown (in the version the
    view holds), unless the photo was the last of the view. *)
Theorem next_then_prev_returns (s : AppState) (d d' : SlideDirection)
    (sel : Photo) (front : list Photo) (cur nxt : Photo) (back : list Photo) :
  NoDup (ids (memo s)) ->
  selectedPhoto s = Some sel -> memo s = front ++ cur :: nxt :: back ->
  id cur = id sel -> 
  selectedPhoto (fst (handlePrevPhoto (fst (handleNextPhoto s d)) d')) = Some cur.
Proof.
  intros Hnd Hsel Hmemo Hcur.
  rewrite Hmemo in Hnd. unfold ids in Hnd. rewrite map_app in Hnd.
  cbn [List.map] in Hnd.
  assert (Hfront : Forall (fun q => id q <> id sel) front).
  { rewrite Forall_forall. intros q Hq Heq.
    apply NoDup_remove_2 in Hnd. apply Hnd. apply in_or_app. left.
    rewrite Hcur, <- Heq. apply in_map, Hq. }
  rewrite (next_at s d sel front cur (nxt :: back) Hsel Hmemo Hcur Hfront).
  cbn [fst].
  assert (Hmemo' : memo (setSelectedPhoto (Some nxt) s) = (front ++ [cur]) ++ nxt :: back)
    by (cbn [memo setSelectedPhoto]; rewrite Hmemo, <- app_assoc; reflexivity).
  assert (Hfront' : Forall (fun q => id q <> id nxt) (front ++ [cur])).
  { rewrite Forall_forall. intros q Hq Heq.
    replace (List.map id front ++ id cur :: id nxt :: List.map id back)
      with ((List.map id front ++ [id cur]) ++ id nxt :: List.map id back) in Hnd
      by (rewrite <- app_assoc; reflexivity).
    apply NoDup_remove_2 in Hnd. apply Hnd. apply in_or_app. left.
    rewrite <- Heq. change [id cur] with (List.map id [cur]).
    rewrite <- map_app. apply in_map, Hq. }
  rewrite (prev_at (setSelectedPhoto (Some nxt) s) d' nxt (front ++ [cur]) nxt back
             eq_refl Hmemo' eq_refl Hfront').
  rewrite rev_app_distr. reflexivity.
Qed.

Lemma next_then_prev_returns_witness :
  let s := setSelectedPhoto (Some alps) (mount [unlocated; alps; north] rng0) in
  NoDup (ids (memo s))
  /\ selectedPhoto (fst (handlePrevPhoto (fst (handleNextPhoto s slide_left)) slide_left))
     = Some alps.
Proof.
  cbv zeta.
  set (s := setSelectedPhoto (Some alps) (mount [unlocated; alps; north] rng0)).
  assert (H : NoDup (ids (memo s))).
  { constructor; [cbn; intros [E | [E | []]]; discriminate E |].
    constructor; [cbn; intros [E | []]; discriminate E |].
    constructor; [cbn; intros [] | constructor]. }
  split; [exact H |].
  exact (next_then_prev_returns s slide_left slide_left alps [unlocated] alps north []
           H eq_refl eq_refl eq_refl).
Defined.

Lemma render_selectedPhoto fresh old new :
  selectedPhoto (render fresh old new) = selectedPhoto new.
Proof.
  unfold render.
  destruct (filteredPhotos _ _ _ _ _ _) as [view g'].
  destruct (memoStale fresh old new), (resetDue old new); reflexivity.
Qed.

Lemma step_selectedPhoto e s :
  selectedPhoto (step e s)
  = match e with
    | UpdatePhoto p => selectedPhoto (handleUpdatePhoto p s)
    | DeletePhoto photoId => selectedPhoto (handleDeletePhoto photoId s)
    | _ => selectedPhoto s
    end.
Proof.
  destruct e; cbn [step]; rewrite ?render_selectedPhoto; try reflexivity.
  - destruct s as [ph ac tb vm mm sel vc st ul me pl rnd]. unfold handleTabClick.
    destruct vm, ul, (String.eqb tab TAB_SHUFFLE),
      (String.eqb tab TAB_NEARBY || String.eqb tab TAB_FARAWAY); reflexivity.
  - destruct s as [ph ac tb vm mm sel vc st ul me pl rnd].
    destruct vm, mm; reflexivity.
  - destruct (pendingLocation s) eqn:E; [reflexivity |].
    rewrite render_selectedPhoto. unfold locationResolved. rewrite E. reflexivity.
  - destruct (viewMode s); reflexivity.
Qed.

Lemma viewerStep_keeps e s :
  photos (viewerStep e s) = photos s /\ memo (viewerStep e s) = memo s
  /\ activeCategory (viewerStep e s) = activeCategory s
  /\ activeTab (viewerStep e s) = activeTab s
  /\ shuffleTrigger (viewerStep e s) = shuffleTrigger s
  /\ userLocation (viewerStep e s) = userLocation s.
Proof.
  destruct e; cbn [viewerStep].
  - unfold handlePhotoClick. destruct (isManageMode s); repeat split.
  - unfold handleNextPhoto. destruct (selectedPhoto s); [| repeat split].
    destruct (_ <? _)%Z; repeat split.
  - unfold handlePrevPhoto. destruct (selectedPhoto s); [| repeat split].
    destruct (_ <? _)%Z; repeat split.
  - repeat split.
Qed.

Lemma viewerStep_coherent e s : coherent s -> coherent (viewerStep e s).
Proof.
  intros [g H]. exists g.
  destruct (viewerStep_keeps e s) as (Hp & Hm & Hc & Ht & Hs & Hl).
  rewrite Hp, Hm, Hc, Ht, Hs, Hl. exact H.
Qed.

Lemma session_coherent loaded g s : session loaded g s -> coherent s.
Proof.
  induction 1 as [| s e _ IH | s e _ IH _].
  - apply mount_coherent.
  - apply step_coherent, IH.
  - apply viewerStep_coherent, IH.
Qed.

Lemma selected_after_update p s sel :
  (forall cur, selectedPhoto s = Some cur -> In cur (photos s)) ->
  selectedPhoto (handleUpdatePhoto p s) = Some sel ->
  In sel (photos (handleUpdatePhoto p s)).
Proof.
  intros Hinv. rewrite (handleUpdatePhoto_eq p s). cbv zeta.
  cbn [selectedPhoto photos].
  destruct (selectedPhoto s) as [cur |]; [| discriminate].
  specialize (Hinv cur eq_refl).
  destruct (String.eqb (id cur) (id p)) eqn:E; intros H; injection H as <-.
  - assert (Hex : existsb (fun q => String.eqb (id q) (id p)) (photos s) = true)
      by (apply existsb_exists; exists cur; tauto).
    rewrite Hex. apply in_map_iff. exists cur. rewrite E. tauto.
  - destruct (existsb _ (photos s)); [| right; exact Hinv].
    apply in_map_iff. exists cur. rewrite E. tauto.
Qed.

Lemma selected_after_delete photoId s sel :
  (forall cur, selectedPhoto s = Some cur -> In cur (photos s)) ->
  selectedPhoto (handleDeletePhoto photoId s) = Some sel ->
  In sel (photos (handleDeletePhoto photoId s)).
Proof.
  intros Hinv. rewrite handleDeletePhoto_photos. unfold handleDeletePhoto.
  destruct s as [ph ac tb vm mm [cur |] vc st ul me pl rnd]; cbn in *;
    [| discriminate].
  specialize (Hinv cur eq_refl).
  destruct (String.eqb (id cur) photoId) eqn:E; cbn; [discriminate |].
  intros H. injection H as <-. apply filter_In. rewrite E. tauto.
Qed.

Lemma selected_after_viewer e s sel :
  coherent s ->
  (forall photo, e = PhotoClick photo -> In photo (memo s)) ->
  (forall cur, selectedPhoto s = Some cur -> In cur (photos s)) ->
  selectedPhoto (viewerStep e s) = Some sel -> In sel (photos s).
Proof.
  intros Hco Hclick Hinv. destruct e; cbn [viewerStep].
  - unfold handlePhotoClick. destruct (isManageMode s); [apply Hinv |].
    cbn. intros H. injection H as <-.
    apply (coherent_memo_In s _ Hco), (Hclick _ eq_refl).
  - unfold handleNextPhoto. destruct (selectedPhoto s) as [cur |] eqn:Hs;
      [| cbn; rewrite Hs; discriminate].
    destruct (_ <? _)%Z; cbn [fst]; [| rewrite Hs; apply Hinv].
    cbn. intros H. apply (coherent_memo_In s _ Hco), (at_index_In _ _ _ H).
  - unfold handlePrevPhoto. destruct (selectedPhoto s) as [cur |] eqn:Hs;
      [| cbn; rewrite Hs; discriminate].
    destruct (_ <? _)%Z; cbn [fst]; [| rewrite Hs; apply Hinv].
    cbn. intros H. apply (coherent_memo_In s _ Hco), (at_index_In _ _ _ H).
  - cbn. discriminate.
Qed.

Lemma session_selected loaded g s :
  session loaded g s ->
  forall sel, selectedPhoto s = Some sel -> In sel (photos s).
Proof.
  induction 1 as [| s e Hs IH | s e Hs IH Hclick]; intros sel.
  - unfold mount. destruct (filteredPhotos _ _ _ _ _ _). cbn. discriminate.
  - rewrite step_selectedPhoto, step_photos.
    destruct e; try apply IH.
    + apply selected_after_update, IH.
    + apply selected_after_delete, IH.
  - rewrite (proj1 (viewerStep_keeps e s)).
    apply (selected_after_viewer e s sel (session_coherent _ _ _ Hs) Hclick IH).
Qed.

Lemma session_NoDup loaded g s :
  NoDup (ids loaded) -> session loaded g s -> NoDup (ids (photos s)).
Proof.
  intros Hl. induction 1 as [| s e _ IH | s e _ IH _].
  - unfold mount. destruct (filteredPhotos _ _ _ _ _ _). exact Hl.
  - apply step_NoDup, IH.
  - rewrite (proj1 (viewerStep_keeps e s)). exact IH.
Qed.

Lemma find_unique_id sel l :
  NoDup (ids l) -> In sel l -> find (withId (id sel)) l = Some sel.
Proof.
  induction l as [| q l IH]; intros Hnd Hin; [destruct Hin |].
  cbn [ids List.map] in Hnd. apply NoDup_cons_iff in Hnd. destruct Hnd as [Hq Hnd].
  cbn [find]. unfold withId at 1.
  destruct Hin as [-> | Hin]; [rewrite String.eqb_refl; reflexivity |].
  destruct (String.eqb (id q) (id sel)) eqn:E; [| apply IH; assumption].
  apply String.eqb_eq in E. exfalso. apply Hq. rewrite E. unfold ids.
  apply in_map, Hin.
Qed.

(** X23. Through a whole session (feed events, clicks on photos of the
    view, arrows, closing, edits and deletions) the photo shown in the
    viewer is a photo of the collection; with unique ids it is the very
    entry that the collection holds under its id, never an outdated copy
    and never a deleted photo. *)
Theorem shown_photo_is_current (loaded : list Photo) (g : RNG) (s : AppState)
    (sel : Photo) :
  session loaded g s -> selectedPhoto s = Some sel ->
  In sel (photos s)
  /\ (NoDup (ids loaded) -> find (withId (id sel)) (photos s) = Some sel).
Proof.
  intros Hs Hsel.
  pose proof (session_selected loaded g s Hs sel Hsel) as Hin.
  split; [exact Hin |].
  intros Hnd. apply find_unique_id; [| exact Hin].
  apply (session_NoDup loaded g s Hnd Hs).
Qed.

Lemma shown_photo_is_current_witness :
  let s1 := viewerStep (PhotoClick north) (mount [unlocated; alps; north] rng0) in
  let edited := photoAt "north" (Some 11) (Some 12) in
  let s2 := step (UpdatePhoto edited) s1 in
  session [unlocated; alps; north] rng0 s2
  /\ selectedPhoto s2 = Some edited
  /\ In edited (photos s2).
Proof.
  cbv zeta.
  set (s1 := viewerStep (PhotoClick north) (mount [unlocated; alps; north] rng0)).
  set (edited := photoAt "north" (Some 11) (Some 12)).
  assert (H1 : session [unlocated; alps; north] rng0 (step (UpdatePhoto edited) s1)).
  { apply session_feed. apply session_viewer; [apply session_mount |].
    intros photo E. injection E as <-. right. right. left. reflexivity. }
  assert (H2 : selectedPhoto (step (UpdatePhoto edited) s1) = Some edited)
    by reflexivity.
  split; [exact H1 |]. split; [exact H2 |].
  exact (proj1 (shown_photo_is_current _ _ _ _ H1 H2)).
Defined.

(** ** PersistentStore, beyond the claims *)

Lemma savePhotos_cases collection st :
  match rejects st collection with
  | None => savePhotos collection st = (mkStorage (Some collection) (rejects st), [])
  | Some e =>
      if isQuotaExceeded e then
        if existsb isInline collection then
          match rejects st (networkPhotos collection) with
          | None =>
              savePhotos collection st
              = (mkStorage (Some (networkPhotos collection)) (rejects st),
                 [console_warn
                    "LocalStorage Quota Exceeded. Attempting to clean up old Base64 images...";
                  alert MSG_CLEANED; location_reload])
          | Some _ =>
              savePhotos collection st
              = (st,
                 [console_warn
                    "LocalStorage Quota Exceeded. Attempting to clean up old Base64 images...";
                  console_error "Failed to save even after cleanup";
                  alert MSG_SAVE_FAILED])
          end
        else
          savePhotos collection st
          = (st,
             [console_warn
                "LocalStorage Quota Exceeded. Attempting to clean up old Base64 images...";
              alert MSG_EXHAUSTED])
      else savePhotos collection st
           = (st, [console_error "Failed to save photos to storage"])
  end.
Proof.
  unfold savePhotos, setItem.
  destruct (rejects st collection) as [e |]; [| reflexivity].
  destruct (isQuotaExceeded e); [| reflexivity].
  fold (networkPhotos collection). rewrite cleanup_possible.
  destruct (existsb isInline collection); [| reflexivity].
  destruct (rejects st (networkPhotos collection)); reflexivity.
Qed.

(** X24. Whatever the storage answers, a save leaves in the slot what was
    there before, or the collection, or its network-referenced photos, and
    nothing else; it raises no effect exactly when the first write is
    accepted, and then the slot holds the collection; it shows at most one
    alert; and a first write that fails for another reason than quota
    (neither the name QuotaExceededError nor the code 22) is only logged:
    the storage is as before and no alert is shown. *)
Theorem save_outcomes (collection : list Photo) (st : Storage) :
  let st' := fst (savePhotos collection st) in
  let effects := snd (savePhotos collection st) in
  rejects st' = rejects st
  /\ (lumina_photos st' = lumina_photos st
      \/ lumina_photos st' = Some collection
      \/ lumina_photos st' = Some (networkPhotos collection))
  /\ (effects = [] <-> rejects st collection = None)
  /\ (rejects st collection = None -> lumina_photos st' = Some collection)
  /\ (List.length (filter isAlert effects) <= 1)%nat
  /\ (forall e, rejects st collection = Some e -> isQuotaExceeded e = false ->
        st' = st /\ filter isAlert effects = []).
Proof.
  cbv zeta. pose proof (savePhotos_cases collection st) as H.
  assert (Hfin : forall st' effects,
             savePhotos collection st = (st', effects) ->
             rejects st' = rejects st ->
             (lumina_photos st' = lumina_photos st
              \/ lumina_photos st' = Some collection
              \/ lumina_photos st' = Some (networkPhotos collection)) ->
             (effects = [] <-> rejects st collection = None) ->
             (rejects st collection = None -> lumina_photos st' = Some collection) ->
             (List.length (filter isAlert effects) <= 1)%nat ->
             (forall e, rejects st collection = Some e -> isQuotaExceeded e = false ->
                        st' = st /\ filter isAlert effects = []) ->
             rejects (fst (savePhotos collection st)) = rejects st
             /\ (lumina_photos (fst (savePhotos collection st)) = lumina_photos st
                 \/ lumina_photos (fst (savePhotos collection st)) = Some collection
                 \/ lumina_photos (fst (savePhotos collection st))
                    = Some (networkPhotos collection))
             /\ (snd (savePhotos collection st) = [] <-> rejects st collection = None)
             /\ (rejects st collection = None ->
                 lumina_photos (fst (savePhotos collection st)) = Some collection)
             /\ (List.length (filter isAlert (snd (savePhotos collection st))) <= 1)%nat
             /\ (forall e, rejects st collection = Some e -> isQuotaExceeded e = false ->
                   fst (savePhotos collection st) = st
                   /\ filter isAlert (snd (savePhotos collection st)) = [])).
  { intros st' effects ->. cbn [fst snd]. tauto. }
  destruct (rejects st collection) as [e |] eqn:Er;
    [destruct (isQuotaExceeded e) eqn:Eq;
     [destruct (existsb isInline collection);
      [destruct (rejects st (networkPhotos collection)) |] |] |];
    apply (Hfin _ _ H); cbn;
    try reflexivity; try lia; try (split; discriminate); try discriminate;
    try (left; reflexivity); try (right; left; reflexivity);
    try (right; right; reflexivity);
    try (intros x Hx Hq; injection Hx as <-; first [congruence | split; reflexivity]).
  split; reflexivity.
Qed.

(** X25. The page is reloaded only after the cleaned collection has been
    written: if a save asks for the reload then the slot holds exactly the
    network-referenced photos, none of them inline and fewer than the
    collection had, the cleanup notice has been shown, and saving the
    cleaned collection again (as the reloaded page does) is accepted
    silently, so the reload does not repeat. *)
Theorem reload_only_after_cleanup (collection : list Photo) (st : Storage) :
  In location_reload (snd (savePhotos collection st)) ->
  let st' := fst (savePhotos collection st) in
  lumina_photos st' = Some (networkPhotos collection)
  /\ existsb isInline (networkPhotos collection) = false
  /\ (List.length (networkPhotos collection) < List.length collection)%nat
  /\ In (alert MSG_CLEANED) (snd (savePhotos collection st))
  /\ savePhotos (networkPhotos collection) st' = (st', []).
Proof.
  cbv zeta. pose proof (savePhotos_cases collection st) as H.
  destruct (rejects st collection) as [e |] eqn:Er.
  - destruct (isQuotaExceeded e) eqn:Eq.
    + destruct (existsb isInline collection) eqn:Ei.
      * destruct (rejects st (networkPhotos collection)) eqn:En; rewrite H; cbn.
        -- intros [E | [E | [E | []]]]; discriminate E.
        -- intros _. repeat split.
           ++ clear. unfold networkPhotos.
              induction collection as [| p l IH]; [reflexivity |].
              simpl. destruct (isInline p) eqn:Ep; simpl; [| rewrite Ep]; exact IH.
           ++ apply Nat.ltb_lt. rewrite cleanup_possible. exact Ei.
           ++ right. left. reflexivity.
           ++ unfold savePhotos, setItem. cbn [rejects]. rewrite En. reflexivity.
      * rewrite H; cbn. intros [E | [E | []]]; discriminate E.
    + rewrite H; cbn. intros [E | []]; discriminate E.
  - rewrite H; cbn. intros [].
Qed.

Lemma reload_only_after_cleanup_witness :
  In location_reload (snd (savePhotos [inlinePhoto; alps] smallStorage))
  /\ savePhotos [alps] (fst (savePhotos [inlinePhoto; alps] smallStorage))
     = (fst (savePhotos [inlinePhoto; alps] smallStorage), []).
Proof.
  assert (H : In location_reload (snd (savePhotos [inlinePhoto; alps] smallStorage)))
    by (right; right; left; reflexivity).
  split; [exact H |].
  exact (proj2 (proj2 (proj2 (proj2
           (reload_only_after_cleanup [inlinePhoto; alps] smallStorage H))))).
Defined.

(** ** Seed data *)

Lemma mapM_invariant {A B : Type} (f : A -> Rand B) (P : B -> Prop)
    (Inv : RNG -> Prop) l :
  (forall a g, Inv g -> P (fst (f a g)) /\ Inv (snd (f a g))) ->
  forall g, Inv g -> Forall P (fst (mapM f l g)) /\ Inv (snd (mapM f l g)).
Proof.
  intros Hf. induction l as [| a l IH]; intros g Hg; cbn [mapM].
  - split; [constructor | exact Hg].
  - unfold bind. destruct (Hf a g Hg) as [Hp Hi].
    destruct (f a g) as [b g1]. cbn [fst snd] in *.
    destruct (IH g1 Hi) as [Hall Hi'].
    destruct (mapM f l g1) as [bs g2]. cbn [fst snd ret] in *.
    split; [constructor; assumption | exact Hi'].
Qed.

Lemma mapM_map {A B C : Type} (f : A -> Rand B) (h : B -> C) (k : A -> C) l :
  (forall a g, h (fst (f a g)) = k a) ->
  forall g, List.map h (fst (mapM f l g)) = List.map k l.
Proof.
  intros Hf. induction l as [| a l IH]; intros g; cbn [mapM]; [reflexivity |].
  unfold bind. specialize (Hf a g). destruct (f a g) as [b g1].
  specialize (IH g1). destruct (mapM f l g1) as [bs g2].
  cbn [fst snd ret List.map] in *. rewrite Hf, IH. reflexivity.
Qed.

Lemma mapM_cursor {A B : Type} (f : A -> Rand B) (n : nat) l :
  (forall a g, cursor (snd (f a g)) = (cursor g + n)%nat) ->
  forall g, cursor (snd (mapM f l g)) = (cursor g + n * List.length l)%nat.
Proof.
  intros Hf. induction l as [| a l IH]; intros g; cbn [mapM List.length].
  - cbn. lia.
  - unfold bind. specialize (Hf a g). destruct (f a g) as [b g1].
    specialize (IH g1). destruct (mapM f l g1) as [bs g2].
    cbn [fst snd ret] in *. lia.
Qed.

Lemma generatedPhoto_shape i g :
  let p := fst (generatedPhoto i g) in
  let base := nth (i mod 3) BASE_PHOTOS alps in
  id p = ("gen-" ++ decimal i)%string
  /\ width p = Some 800 /\ height p = Some 600
  /\ category p = category base /\ rating p = rating base
  /\ latitude (exif p)
     = Some (orZero (latitude (exif base)) + (draws g (cursor g) - 0.5) * 10)
  /\ longitude (exif p)
     = Some (orZero (longitude (exif base)) + (draws g (S (cursor g)) - 0.5) * 10)
  /\ draws (snd (generatedPhoto i g)) = draws g
  /\ cursor (snd (generatedPhoto i g)) = (cursor g + 2)%nat.
Proof.
  cbv zeta. unfold generatedPhoto, bind, Math_random, ret.
  cbn [fst snd id width height category rating exif latitude longitude draws cursor
       List.length BASE_PHOTOS].
  assert (Hlt : (i mod 3 < 3)%nat) by (apply Nat.mod_upper_bound; lia).
  destruct (i mod 3) as [| [| [| k]]]; [| | | lia]; cbn [nth];
    repeat split; lia.
Qed.

Lemma NoDup_strings (l : list string) : nodup string_dec l = l -> NoDup l.
Proof. intros <-. apply NoDup_nodup. Qed.

(** X26. Whatever [Math.random] draws, the seed collection has 28 photos
    with pairwise different ids and 50 draws are consumed in building it;
    every photo is horizontal, so the category VERTICAL shows none of
    them; and when the draws are in [0, 1) every generated photo has the
    category and the rating of one of the three base photos and lies
    within 5 degrees of it in latitude and in longitude. *)
Theorem seed_well_formed (g : RNG) :
  let seed := fst (INITIAL_PHOTOS g) in
  List.length seed = 28%nat
  /\ NoDup (ids seed)
  /\ cursor (snd (INITIAL_PHOTOS g)) = (cursor g + 50)%nat
  /\ Forall (fun p => categoryFilter HORIZONTAL p = true) seed
  /\ filter (categoryFilter VERTICAL) seed = []
  /\ ((forall n, 0 <= draws g n < 1) ->
      Forall (fun p => exists base la lo,
                  In base BASE_PHOTOS
                  /\ category p = category base /\ rating p = rating base
                  /\ latitude (exif p) = Some la /\ longitude (exif p) = Some lo
                  /\ -5 <= la - orZero (latitude (exif base)) <= 5
                  /\ -5 <= lo - orZero (longitude (exif base)) <= 5)
        (skipn 3 seed)).
Proof.
  cbv zeta. unfold INITIAL_PHOTOS, GENERATED_PHOTOS, bind.
  destruct (mapM generatedPhoto (seq 0 25) g) as [generated g'] eqn:Egen.
  cbn [fst snd ret].
  assert (Hids : List.map id generated
                 = List.map (fun i => ("gen-" ++ decimal i)%string) (seq 0 25)).
  { pose proof (mapM_map generatedPhoto id
                  (fun i => ("gen-" ++ decimal i)%string) (seq 0 25)
                  (fun i g0 => proj1 (generatedPhoto_shape i g0)) g) as H.
    rewrite Egen in H. exact H. }
  assert (Hlen : List.length generated = 25%nat).
  { rewrite <- (length_map id), Hids, length_map, length_seq. reflexivity. }
  assert (Hdim : Forall (fun p => width p = Some 800 /\ height p = Some 600) generated).
  { pose proof (mapM_invariant generatedPhoto
                  (fun p => width p = Some 800 /\ height p = Some 600)
                  (fun _ => True) (seq 0 25)) as H.
    specialize (H (fun i g0 _ =>
                     conj (conj (proj1 (proj2 (generatedPhoto_shape i g0)))
                             (proj1 (proj2 (proj2 (generatedPhoto_shape i g0))))) I)
                  g I).
    rewrite Egen in H. exact (proj1 H). }
  assert (Hhor : Forall (fun p => categoryFilter HORIZONTAL p = true)
                   (BASE_PHOTOS ++ generated)).
  { apply Forall_app. split.
    - repeat constructor; unfold categoryFilter; cbn [Category_eqb width height orZero];
        apply geb_true; lra.
    - eapply Forall_impl; [| exact Hdim]. cbv beta. intros p [Hw Hh].
      unfold categoryFilter. cbn [Category_eqb]. rewrite Hw, Hh. cbn [orZero].
      apply geb_true. lra. }
  split; [| split; [| split; [| split; [| split]]]].
  - rewrite length_app, Hlen. reflexivity.
  - unfold ids. rewrite map_app, Hids. apply NoDup_strings. vm_compute. reflexivity.
  - pose proof (mapM_cursor generatedPhoto 2 (seq 0 25)
                  (fun i g0 => proj2 (proj2 (proj2 (proj2 (proj2 (proj2 (proj2 (proj2
                     (generatedPhoto_shape i g0))))))))) g) as H.
    rewrite Egen in H. cbn [snd] in H. rewrite H, length_seq. lia.
  - exact Hhor.
  - induction Hhor as [| p l Hp _ IH]; [reflexivity |].
    cbn [filter].
    assert (Hv : categoryFilter VERTICAL p = false).
    { unfold categoryFilter in *. cbn [Category_eqb] in *.
      apply geb_true in Hp. apply gtb_false. exact Hp. }
    rewrite Hv. exact IH.
  - intros Hdraws. change (skipn 3 (BASE_PHOTOS ++ generated)) with generated.
    pose proof (mapM_invariant generatedPhoto
                  (fun p => exists base la lo,
                       In base BASE_PHOTOS
                       /\ category p = category base /\ rating p = rating base
                       /\ latitude (exif p) = Some la /\ longitude (exif p) = Some lo
                       /\ -5 <= la - orZero (latitude (exif base)) <= 5
                       /\ -5 <= lo - orZero (longitude (exif base)) <= 5)
                  (fun g0 => forall n, 0 <= draws g0 n < 1) (seq 0 25)) as H.
    assert (Hstep : forall i g0,
               (forall n, 0 <= draws g0 n < 1) ->
               (exists base la lo,
                   In base BASE_PHOTOS
                   /\ category (fst (generatedPhoto i g0)) = category base
                   /\ rating (fst (generatedPhoto i g0)) = rating base
                   /\ latitude (exif (fst (generatedPhoto i g0))) = Some la
                   /\ longitude (exif (fst (generatedPhoto i g0))) = Some lo
                   /\ -5 <= la - orZero (latitude (exif base)) <= 5
                   /\ -5 <= lo - orZero (longitude (exif base)) <= 5)
               /\ (forall n, 0 <= draws (snd (generatedPhoto i g0)) n < 1)).
    { intros i g0 Hg0.
      destruct (generatedPhoto_shape i g0)
        as (_ & _ & _ & Hc & Hr & Hla & Hlo & Hd & _).
      cbv zeta in *. split; [| rewrite Hd; exact Hg0].
      exists (nth (i mod 3) BASE_PHOTOS alps). eexists. eexists.
      split; [apply nth_In; change (List.length BASE_PHOTOS) with 3%nat;
              apply Nat.mod_upper_bound; lia |].
      split; [exact Hc |]. split; [exact Hr |].
      split; [exact Hla |]. split; [exact Hlo |].
      pose proof (Hg0 (cursor g0)). pose proof (Hg0 (S (cursor g0))).
      split; lra. }
    specialize (H Hstep g Hdraws). rewrite Egen in H. exact (proj1 H).
Qed.

(** ** Events and the view *)

Lemma ViewMode_eqb_refl v : ViewMode_eqb v v = true.
Proof. destruct v; reflexivity. Qed.

Lemma render_fresh_inputs old new :
  activeCategory new = activeCategory old -> activeTab new = activeTab old ->
  shuffleTrigger new = shuffleTrigger old -> viewMode new = viewMode old ->
  render true old new
  = let (view, g) :=
      filteredPhotos (photos new) (activeCategory new) (activeTab new)
        (shuffleTrigger new) (userLocation new) (random new) in
    setMemo view g new.
Proof.
  intros Hc Ht Hs Hv. unfold render, resetDue. cbn [memoStale orb].
  rewrite Hc, Ht, Hs, Hv.
  rewrite (proj2 (Category_eqb_eq _ _) eq_refl), String.eqb_refl, Nat.eqb_refl,
    ViewMode_eqb_refl.
  cbn [negb orb]. destruct (filteredPhotos _ _ _ _ _ _). reflexivity.
Qed.

(** X27. Until the location is resolved, Nearby and Faraway show the
    category-filtered collection in its own order.  When a pending query
    answers, the view is composed again at once with the new location,
    while the window keeps its size; an answer that no query is waiting
    for is ignored. *)
Theorem location_answer_recomposes (loc : GeoCoordinate) (s : AppState) :
  (forall collection cat tab epoch g,
      tab = TAB_NEARBY \/ tab = TAB_FARAWAY ->
      fst (filteredPhotos collection cat tab epoch None g)
      = filter (categoryFilter cat) collection)
  /\ (pendingLocation s = 0%nat -> step (LocationResolved loc) s = s)
  /\ (forall n, pendingLocation s = S n ->
        let s' := step (LocationResolved loc) s in
        userLocation s' = Some loc /\ pendingLocation s' = n
        /\ visibleCount s' = visibleCount s
        /\ (memo s', random s')
           = filteredPhotos (photos s) (activeCategory s) (activeTab s)
               (shuffleTrigger s) (Some loc) (random s)).
Proof.
  split; [| split].
  - intros collection cat tab epoch g [-> | ->]; reflexivity.
  - intros H. cbn [step]. rewrite H. reflexivity.
  - intros n H. cbv zeta. cbn [step]. rewrite H.
    unfold locationResolved. rewrite H.
    rewrite render_fresh_inputs by reflexivity.
    cbn [photos activeCategory activeTab shuffleTrigger userLocation random
         setUserLocation setPendingLocation].
    destruct (filteredPhotos _ _ _ _ _ _) as [view g'].
    destruct s; cbn. repeat split.
Qed.

Lemma In_after_update p l q :
  In q (if existsb (fun x => String.eqb (id x) (id p)) l
        then List.map (fun x => if String.eqb (id x) (id p) then p else x) l
        else p :: l) ->
  id q = id p -> q = p.
Proof.
  destruct (existsb _ l) eqn:E; intros Hin Hid.
  - apply in_map_iff in Hin. destruct Hin as (x & Hx & _).
    destruct (String.eqb (id x) (id p)) eqn:Ex; [congruence |].
    apply String.eqb_neq in Ex. congruence.
  - destruct Hin as [-> | Hin]; [reflexivity |].
    assert (existsb (fun x => String.eqb (id x) (id p)) l = true).
    { apply existsb_exists. exists q. split; [exact Hin | apply String.eqb_eq, Hid]. }
    congruence.
Qed.

(** X28. An edit and a deletion show at once: in the state right after
    [DeletePhoto] no photo of the view has the deleted id, and in the state
    right after [UpdatePhoto] every photo of the view that has the id of
    the given photo is the given photo. *)
Theorem mutations_show_at_once (loaded : list Photo) (g : RNG) (s : AppState) :
  reachable loaded g s ->
  (forall photoId, ~ In photoId (ids (memo (step (DeletePhoto photoId) s))))
  /\ (forall p q, In q (memo (step (UpdatePhoto p) s)) -> id q = id p -> q = p).
Proof.
  intros Hreach. split.
  - intros photoId Hin.
    pose proof (reachable_coherent loaded g _
                  (reach_step loaded g s (DeletePhoto photoId) Hreach)) as Hco.
    unfold ids in Hin. apply in_map_iff in Hin. destruct Hin as (q & Hq & Hin).
    apply (coherent_memo_In _ _ Hco) in Hin.
    rewrite step_photos, handleDeletePhoto_photos in Hin.
    apply filter_In in Hin. destruct Hin as [_ Hin].
    apply negb_true_iff, String.eqb_neq in Hin. contradiction.
  - intros p q Hin Hid.
    pose proof (reachable_coherent loaded g _
                  (reach_step loaded g s (UpdatePhoto p) Hreach)) as Hco.
    apply (coherent_memo_In _ _ Hco) in Hin.
    rewrite step_photos, handleUpdatePhoto_photos in Hin.
    exact (In_after_update p (photos s) q Hin Hid).
Qed.

Lemma mutations_show_at_once_witness :
  reachable BASE_PHOTOS rng0 (mount BASE_PHOTOS rng0)
  /\ ~ In "4"%string (ids (memo (step (DeletePhoto "4") (mount BASE_PHOTOS rng0)))).
Proof.
  assert (H : reachable BASE_PHOTOS rng0 (mount BASE_PHOTOS rng0)) by apply reach_mount.
  split; [exact H |].
  exact (proj1 (mutations_show_at_once BASE_PHOTOS rng0 _ H) "4"%string).
Defined.

Lemma setActiveCategory_same s : setActiveCategory (activeCategory s) s = s.
Proof. destruct s; reflexivity. Qed.

(** X29. A click on the category that is already active changes nothing,
    in Shuffle mode too: the view is not drawn again.  A click on another
    category composes the view for it and sets the window back to the
    page size. *)
Theorem category_click (cat : Category) (s : AppState) :
  let s' := step (CategoryClick cat) s in
  (cat = activeCategory s -> s' = s)
  /\ (cat <> activeCategory s ->
      activeCategory s' = cat /\ visibleCount s' = PAGE_SIZE
      /\ (memo s', random s')
         = filteredPhotos (photos s) cat (activeTab s) (shuffleTrigger s)
             (userLocation s) (random s)).
Proof.
  cbv zeta. cbn [step]. split.
  - intros ->. rewrite setActiveCategory_same.
    rewrite render_quiet by reflexivity.
    rewrite ViewMode_eqb_refl. reflexivity.
  - intros Hneq.
    assert (E : Category_eqb (activeCategory s) cat = false).
    { destruct (Category_eqb (activeCategory s) cat) eqn:E; [| reflexivity].
      apply Category_eqb_eq in E. congruence. }
    unfold render, memoStale, resetDue.
    cbn [activeCategory setActiveCategory photos activeTab shuffleTrigger
         userLocation random].
    rewrite E. cbn [negb orb].
    destruct (filteredPhotos _ _ _ _ _ _) as [view g'].
    destruct s; cbn. repeat split.
Qed.
